(** * RecordingModule: a shallow embedding of src/components/RecordingModule.tsx

    The component is a React function component.  Its behaviour is a state
    machine driven by user-interface events, timers, promise settlements and
    media-recorder callbacks.  The embedding keeps the three kinds of storage
    the source distinguishes:

    - React state ([useState]): read by a closure from the values of the render
      that created the closure, written through setters that take effect for
      the next render;
    - refs ([useRef]) and the per-render local [chunks]: plain mutable cells,
      read and written in place;
    - the objects of the browser platform (streams, recorders, audio contexts,
      timers, pending promises, the console).

    Platform behaviour follows the W3C interfaces the source calls:
    [MediaRecorder.stop()] on an inactive recorder does nothing,
    [MediaRecorder.start()] on a recorder that is not inactive throws
    [InvalidStateError], [MediaStreamTrack.stop()] and [AudioContext.close()]
    never throw, [AnalyserNode.frequencyBinCount] is half of [fftSize],
    a callback passed to [requestAnimationFrame] runs once.
    [MediaRecorder.start()] is modelled for a stream that still has a live
    track; on a stream whose tracks have all ended the platform throws
    [NotSupportedError] instead of starting, a branch [recorder_start] does
    not have.
    [AudioContext.close()] on a closed context only rejects the promise it
    returns, which the source discards.
    JavaScript numbers are doubles.  The elapsed seconds and the countdown
    only ever hold integers, counted up or down by one from 0 or 3, and are
    modelled by [Z].  [formatTime] divides: its quotients are rounded to
    doubles and printed as [Number.prototype.toString] prints them, so the
    embedding also says what the source returns from 2^53 on.  The volume
    is modelled by [Q]: a quotient of an integer below 2^15 by 128, which a
    double represents exactly.  Real time
    is not modelled: a timer may fire at any moment after it was set.

    One turn of the event loop runs one handler to completion and then lets
    React render: the updates of the turn are batched, the component function
    runs again if the state changed, and the effects whose dependencies
    changed run before the next turn. *)

From Stdlib Require Import ZArith QArith String Ascii List Lia.
From Stdlib Require Import DecimalString DecimalZ DecimalPos.
From stdpp Require Import base gmap gmultiset list strings.

Local Open Scope Z_scope.

(** ** Strings and numbers: [formatTime] (lines 208-218) *)

(** A JavaScript number is a double.  [formatTime] is modelled on the
    integer-valued numbers, written as integers of [Z]; a quotient is a
    double [m * 2^e] with at most 53 significant bits, the pair [(m, e)].
    Infinities, NaN and subnormal numbers do not arise from the integers
    below [2^1023]. *)
Definition Number : Type := Z * Z.

(** The integer nearest to the rational [a / b] (for [0 <= a] and [0 < b]),
    the even one of the two when [a / b] is half-way between them. *)
Definition roundHalfEven (a b : Z) : Z :=
  let q := a / b in
  let r := a mod b in
  if 2 * r <? b then q
  else if b <? 2 * r then q + 1
  else if Z.even q then q else q + 1.

(** The fraction [a / b] divided by [2^e]. *)
Definition scaled (a b e : Z) : Z * Z :=
  if 0 <=? e then (a, b * 2 ^ e) else (a * 2 ^ (- e), b).

(** The exponent [l] with [2^l <= a / b < 2^(l+1)], for positive [a], [b]. *)
Definition binade (a b : Z) : Z :=
  let l := Z.log2 a - Z.log2 b in
  let '(x, y) := scaled a b l in
  if y <=? x then l else l - 1.

(** The double nearest to [a / b], for positive [a] and [b]: the quotient
    is rounded to 53 significant bits, ties to even. *)
Definition nearestDouble (a b : Z) : Number :=
  let e := binade a b - 52 in
  let '(x, y) := scaled a b e in
  (roundHalfEven x y, e).

Definition number_of_Z (n : Z) : Number := (n, 0).

(** [a / b] on integer-valued numbers, [b] positive. *)
Definition number_div (a b : Z) : Number :=
  if a =? 0 then (0, 0)
  else let '(m, e) := nearestDouble (Z.abs a) b in (Z.sgn a * m, e).

(** [Math.floor] *)
Definition Math_floor (x : Number) : Z :=
  let '(m, e) := x in
  if 0 <=? e then m * 2 ^ e else m / 2 ^ (- e).

(** The number value of the integer [n]: the double nearest to it. *)
Definition toNumber (n : Z) : Z := Math_floor (number_div n 1).

(** Decimal digits, a leading minus sign for negative numbers. *)
Definition decimal (n : Z) : string := NilZero.string_of_int (Z.to_int n).

(** The shortest decimal digits that read back as the double [n]
    (positive): the largest [j], at most [fuel], for which a multiple of
    [10^j] has the number value [n], and of the two multiples next to [n]
    the nearer one that does (the even one in a tie).  The result [(s, j)]
    stands for [s * 10^j]. *)
Fixpoint shortest (fuel : nat) (n : Z) : Z * Z :=
  match fuel with
  | O => (n, 0)
  | S fuel' =>
      let j := Z.of_nat fuel in
      let p := 10 ^ j in
      let lo := n / p in
      let hi := lo + 1 in
      let lo_ok := (0 <? lo) && (toNumber (lo * p) =? n) in
      let hi_ok := toNumber (hi * p) =? n in
      let dlo := n - lo * p in
      let dhi := hi * p - n in
      if lo_ok && hi_ok then
        if dlo <? dhi then (lo, j)
        else if dhi <? dlo then (hi, j)
        else if Z.even lo then (lo, j) else (hi, j)
      else if lo_ok then (lo, j)
      else if hi_ok then (hi, j)
      else shortest fuel' n
  end.

(** [Number.prototype.toString] on an integer-valued number.  Below [2^53]
    every integer is a double and the shortest digits that read back as it
    are its decimal digits.  From [2^53] on the digits are the shortest
    that read back as the same double, followed by zeros while the number
    has at most 21 digits, and in exponent form beyond. *)
Definition toString (n : Z) : string :=
  if Z.abs n <? 2 ^ 53 then decimal n
  else
    let '(s, j) := shortest (String.length (decimal (Z.abs n))) (Z.abs n) in
    let sign := if n <? 0 then "-" else "" in
    let digits := decimal s in
    let position := Z.of_nat (String.length digits) + j in
    if position <=? 21 then sign +:+ decimal (s * 10 ^ j)
    else
      match digits with
      | String c "" => sign +:+ String c "" +:+ "e+" +:+ decimal (position - 1)
      | String c rest =>
          sign +:+ String c "" +:+ "." +:+ rest +:+ "e+" +:+ decimal (position - 1)
      | EmptyString => sign
      end.

(** The first [n] characters of [cur] followed by [pad] repeated forever. *)
Fixpoint fill (n : nat) (cur pad : string) : string :=
  match n with
  | O => ""
  | S n' =>
      match cur with
      | String c rest => String c (fill n' rest pad)
      | EmptyString =>
          match pad with
          | String c rest => String c (fill n' rest pad)
          | EmptyString => ""
          end
      end
  end.

(** [String.prototype.padStart]. *)
Definition padStart (targetLength : nat) (padString : string) (s : string) : string :=
  if (targetLength <=? String.length s)%nat then s
  else fill (targetLength - String.length s) padString padString +:+ s.

(** [%] on integer-valued numbers is the truncated remainder [Z.rem], which
    is exact; the two quotients are rounded to doubles before [Math.floor]. *)
Definition formatTime (seconds : Z) : string :=
  let hrs := Math_floor (number_div seconds 3600) in
  let mins := Math_floor (number_div (Z.rem seconds 3600) 60) in
  let secs := Math_floor (number_of_Z (Z.rem seconds 60)) in
  let paddedHrs := padStart 2 "0" (toString hrs) in
  let paddedMins := padStart 2 "0" (toString mins) in
  let paddedSecs := padStart 2 "0" (toString secs) in
  paddedHrs +:+ ":" +:+ paddedMins +:+ ":" +:+ paddedSecs.

(** The number a non-empty string of decimal digits denotes, [None] for any
    other string.  Used only to state what [formatTime] prints. *)
Definition decimal_value (s : string) : option Z :=
  Z.of_uint <$> NilZero.uint_of_string s.

(** A JavaScript string is truthy when it is not empty. *)
Definition truthy (s : string) : bool := negb (String.eqb s "").

(** ** Data model *)

Inductive MediaDeviceKind := videoinput | audioinput | audiooutput.

Record MediaDeviceInfo := {
  deviceId : string;
  kind : MediaDeviceKind;
  label : string }.

(** A [Blob] is an object: two blobs with the same bytes are still two
    objects, so each carries the identity the platform gave it. *)
Record Blob := {
  blobId : nat;
  blobType : string;
  blobData : list Byte.byte }.

(** The twelve [useState] cells (lines 4-15). *)
Record ReactState := MkState {
  mediaStream : option nat;
  videoDevices : list MediaDeviceInfo;
  audioDevices : list MediaDeviceInfo;
  recordingTime : Z;
  volume : Q;
  selectedVideoDevice : string;
  selectedAudioDevice : string;
  recording : bool;
  videoSrc : string;
  isSubmit : bool;
  recordedVideo : option Blob;
  countdown : Z }.

(** What the closures of one render see: the state values of that render and
    the array [chunks] that render allocated (line 20). *)
Record Render := { snap : ReactState; chunks : nat }.

Inductive TrackState := live | ended.

(** A stream returned by [getUserMedia], with the device ids it was asked
    for and the state of its tracks. *)
Record MediaStreamObj := {
  streamVideoId : string;
  streamAudioId : string;
  tracks : list TrackState }.

Inductive RecordingState := RSinactive | RSrecording | RSpaused.

(** A [MediaRecorder].  [ondataavailable] and [onstop] are installed by
    [startRecording] and are the same code for every recorder; the only thing
    that differs is the [chunks] array the two closures captured. *)
Record MediaRecorderObj := {
  recStream : nat;
  recState : RecordingState;
  recChunks : nat;
  recStopsQueued : nat }.

(** An [AudioContext] with its analyser.  [ctxFrequencyData] is what
    [getByteFrequencyData] copies into [dataArray]. *)
Record AudioContextObj := {
  ctxStream : nat;
  ctxClosed : bool;
  ctxFrequencyData : list Byte.byte }.

Inductive IntervalCallback := ElapsedTick | CountdownTick.

Inductive ConsoleLevel := LogLevel | ErrorLevel.

Record World := MkWorld {
  (* React *)
  st : ReactState;            (* state after the setters called so far *)
  dirty : bool;               (* a setter changed the state since the last render *)
  view : Render;              (* the last render *)
  (* refs and effect clean-ups *)
  mediaRecorderRef : option nat;
  audioContextRef : option nat;
  analyserRef : option nat;
  srcObject : option nat;     (* videoRef.current.srcObject *)
  countdownCleanup : option nat;
  videoURLCleanup : option string;
  (* platform *)
  nextId : nat;
  streams : gmap nat MediaStreamObj;
  recorders : gmap nat MediaRecorderObj;
  arrays : gmap nat (list Blob);
  contexts : gmap nat AudioContextObj;
  timeouts : gset nat;
  intervals : gmap nat IntervalCallback;
  userMediaRequests : gmap nat (string * string);
  enumerations : gmap nat (string * string);
  objectURLs : gset string;
  console : list (ConsoleLevel * string);
  (* the [updateVolume] callbacks passed to [requestAnimationFrame] and not
     yet run, each named by the audio context of its analyser *)
  animationFrames : gmultiset nat }.

#[global] Instance MediaDeviceKind_eq_dec : EqDecision MediaDeviceKind.
Proof. solve_decision. Defined.
#[global] Instance TrackState_eq_dec : EqDecision TrackState.
Proof. solve_decision. Defined.
#[global] Instance RecordingState_eq_dec : EqDecision RecordingState.
Proof. solve_decision. Defined.
#[global] Instance IntervalCallback_eq_dec : EqDecision IntervalCallback.
Proof. solve_decision. Defined.

(** ** Field updates *)

Definition with_mediaStream v '(MkState a b c d e f g h i j k l) := MkState v b c d e f g h i j k l.
Definition with_videoDevices v '(MkState a b c d e f g h i j k l) := MkState a v c d e f g h i j k l.
Definition with_audioDevices v '(MkState a b c d e f g h i j k l) := MkState a b v d e f g h i j k l.
Definition with_recordingTime v '(MkState a b c d e f g h i j k l) := MkState a b c v e f g h i j k l.
Definition with_volume v '(MkState a b c d e f g h i j k l) := MkState a b c d v f g h i j k l.
Definition with_selectedVideoDevice v '(MkState a b c d e f g h i j k l) := MkState a b c d e v g h i j k l.
Definition with_selectedAudioDevice v '(MkState a b c d e f g h i j k l) := MkState a b c d e f v h i j k l.
Definition with_recording v '(MkState a b c d e f g h i j k l) := MkState a b c d e f g v i j k l.
Definition with_videoSrc v '(MkState a b c d e f g h i j k l) := MkState a b c d e f g h v j k l.
Definition with_isSubmit v '(MkState a b c d e f g h i j k l) := MkState a b c d e f g h i v k l.
Definition with_recordedVideo v '(MkState a b c d e f g h i j k l) := MkState a b c d e f g h i j v l.
Definition with_countdown v '(MkState a b c d e f g h i j k l) := MkState a b c d e f g h i j k v.

Definition on_st f '(MkWorld a b c d e g h i j k l m n o p q r s t u v) := MkWorld (f a) b c d e g h i j k l m n o p q r s t u v.
Definition on_dirty f '(MkWorld a b c d e g h i j k l m n o p q r s t u v) := MkWorld a (f b) c d e g h i j k l m n o p q r s t u v.
Definition on_view f '(MkWorld a b c d e g h i j k l m n o p q r s t u v) := MkWorld a b (f c) d e g h i j k l m n o p q r s t u v.
Definition on_mediaRecorderRef f '(MkWorld a b c d e g h i j k l m n o p q r s t u v) := MkWorld a b c (f d) e g h i j k l m n o p q r s t u v.
Definition on_audioContextRef f '(MkWorld a b c d e g h i j k l m n o p q r s t u v) := MkWorld a b c d (f e) g h i j k l m n o p q r s t u v.
Definition on_analyserRef f '(MkWorld a b c d e g h i j k l m n o p q r s t u v) := MkWorld a b c d e (f g) h i j k l m n o p q r s t u v.
Definition on_srcObject f '(MkWorld a b c d e g h i j k l m n o p q r s t u v) := MkWorld a b c d e g (f h) i j k l m n o p q r s t u v.
Definition on_countdownCleanup f '(MkWorld a b c d e g h i j k l m n o p q r s t u v) := MkWorld a b c d e g h (f i) j k l m n o p q r s t u v.
Definition on_videoURLCleanup f '(MkWorld a b c d e g h i j k l m n o p q r s t u v) := MkWorld a b c d e g h i (f j) k l m n o p q r s t u v.
Definition on_nextId f '(MkWorld a b c d e g h i j k l m n o p q r s t u v) := MkWorld a b c d e g h i j (f k) l m n o p q r s t u v.
Definition on_streams f '(MkWorld a b c d e g h i j k l m n o p q r s t u v) := MkWorld a b c d e g h i j k (f l) m n o p q r s t u v.
Definition on_recorders f '(MkWorld a b c d e g h i j k l m n o p q r s t u v) := MkWorld a b c d e g h i j k l (f m) n o p q r s t u v.
Definition on_arrays f '(MkWorld a b c d e g h i j k l m n o p q r s t u v) := MkWorld a b c d e g h i j k l m (f n) o p q r s t u v.
Definition on_contexts f '(MkWorld a b c d e g h i j k l m n o p q r s t u v) := MkWorld a b c d e g h i j k l m n (f o) p q r s t u v.
Definition on_timeouts f '(MkWorld a b c d e g h i j k l m n o p q r s t u v) := MkWorld a b c d e g h i j k l m n o (f p) q r s t u v.
Definition on_intervals f '(MkWorld a b c d e g h i j k l m n o p q r s t u v) := MkWorld a b c d e g h i j k l m n o p (f q) r s t u v.
Definition on_userMediaRequests f '(MkWorld a b c d e g h i j k l m n o p q r s t u v) := MkWorld a b c d e g h i j k l m n o p q (f r) s t u v.
Definition on_enumerations f '(MkWorld a b c d e g h i j k l m n o p q r s t u v) := MkWorld a b c d e g h i j k l m n o p q r (f s) t u v.
Definition on_objectURLs f '(MkWorld a b c d e g h i j k l m n o p q r s t u v) := MkWorld a b c d e g h i j k l m n o p q r s (f t) u v.
Definition on_console f '(MkWorld a b c d e g h i j k l m n o p q r s t u v) := MkWorld a b c d e g h i j k l m n o p q r s t (f u) v.
Definition on_animationFrames f '(MkWorld a b c d e g h i j k l m n o p q r s t u v) := MkWorld a b c d e g h i j k l m n o p q r s t u (f v).

(** ** Handlers: state passing with exceptions

    A handler runs against the world and either completes or throws; what it
    wrote before throwing stays written, as in JavaScript. *)

Inductive Outcome (A : Type) := Normal (x : A) | Thrown (name : string).
Arguments Normal {A} x.
Arguments Thrown {A} name.

Definition Handler (A : Type) : Type := World -> Outcome A * World.

#[global] Instance Handler_ret : MRet Handler := fun A x w => (Normal x, w).
#[global] Instance Handler_bind : MBind Handler := fun A B f m w =>
  match m w with
  | (Normal x, w') => f x w'
  | (Thrown e, w') => (Thrown e, w')
  end.

Definition modify (f : World -> World) : Handler unit := fun w => (Normal tt, f w).
Definition read {A} (f : World -> A) : Handler A := fun w => (Normal (f w), w).
Definition throw {A} (name : string) : Handler A := fun w => (Thrown name, w).
Definition skip : Handler unit := mret tt.

(** The world a handler leaves behind, whether it completed or threw. *)
Definition exec {A} (h : Handler A) (w : World) : World := snd (h w).

Definition fresh : Handler nat :=
  n ← read nextId; modify (on_nextId S);; mret n.

(** *** React setters

    A setter called with the value the state already holds (by [Object.is])
    schedules nothing; any other call changes the state and schedules a
    render.  A freshly built array or blob is never the object already held. *)
Definition setState (same : ReactState -> bool) (upd : ReactState -> ReactState) : Handler unit :=
  modify (fun w => if same (st w) then w else on_dirty (fun _ => true) (on_st upd w)).

Definition setMediaStream (v : option nat) : Handler unit :=
  setState (fun s => bool_decide (mediaStream s = v)) (with_mediaStream v).
Definition setVideoDevices (v : list MediaDeviceInfo) : Handler unit :=
  setState (fun _ => false) (with_videoDevices v).
Definition setAudioDevices (v : list MediaDeviceInfo) : Handler unit :=
  setState (fun _ => false) (with_audioDevices v).
Definition setRecordingTime (v : Z) : Handler unit :=
  setState (fun s => Z.eqb (recordingTime s) v) (with_recordingTime v).
Definition updateRecordingTime (f : Z -> Z) : Handler unit :=
  s ← read st; setRecordingTime (f (recordingTime s)).
Definition setVolume (v : Q) : Handler unit :=
  setState (fun s => Qeq_bool (volume s) v) (with_volume v).
Definition setSelectedVideoDevice (v : string) : Handler unit :=
  setState (fun s => String.eqb (selectedVideoDevice s) v) (with_selectedVideoDevice v).
Definition setSelectedAudioDevice (v : string) : Handler unit :=
  setState (fun s => String.eqb (selectedAudioDevice s) v) (with_selectedAudioDevice v).
Definition setRecording (v : bool) : Handler unit :=
  setState (fun s => Bool.eqb (recording s) v) (with_recording v).
Definition setVideoSrc (v : string) : Handler unit :=
  setState (fun s => String.eqb (videoSrc s) v) (with_videoSrc v).
Definition setIsSubmit (v : bool) : Handler unit :=
  setState (fun s => Bool.eqb (isSubmit s) v) (with_isSubmit v).
Definition setRecordedVideo (v : Blob) : Handler unit :=
  setState (fun _ => false) (with_recordedVideo (Some v)).
Definition setCountdown (v : Z) : Handler unit :=
  setState (fun s => Z.eqb (countdown s) v) (with_countdown v).
Definition updateCountdown (f : Z -> Z) : Handler unit :=
  s ← read st; setCountdown (f (countdown s)).

(** *** Platform calls *)

Definition console_error (msg : string) : Handler unit :=
  modify (on_console (fun l => l ++ [(ErrorLevel, msg)])).
Definition console_log (msg : string) : Handler unit :=
  modify (on_console (fun l => l ++ [(LogLevel, msg)])).

(** [navigator.mediaDevices.getUserMedia]: the promise stays pending until
    the platform grants or denies it. *)
Definition getUserMedia (video audio : string) : Handler unit :=
  k ← fresh; modify (on_userMediaRequests <[k := (video, audio)]>).

(** [navigator.mediaDevices.enumerateDevices().then(cb)]: [closed] is what
    the callback closes over, the selection of the render that issued it. *)
Definition enumerateDevices (closed : string * string) : Handler unit :=
  k ← fresh; modify (on_enumerations <[k := closed]>).

Definition stopTracks (m : MediaStreamObj) : MediaStreamObj :=
  {| streamVideoId := streamVideoId m; streamAudioId := streamAudioId m;
     tracks := (fun _ => ended) <$> tracks m |}.

(** [stream.getTracks().forEach(track => track.stop())] *)
Definition stream_stopTracks (s : nat) : Handler unit :=
  modify (on_streams (alter stopTracks s)).

Definition closeContext (c : AudioContextObj) : AudioContextObj :=
  {| ctxStream := ctxStream c; ctxClosed := true; ctxFrequencyData := ctxFrequencyData c |}.

(** [audioContext.close()] *)
Definition context_close (c : nat) : Handler unit :=
  modify (on_contexts (alter closeContext c)).

(** [new MediaRecorder(stream)] with the two callbacks of lines 142-148,
    which close over the array [chunksArray]. *)
Definition new_MediaRecorder (stream chunksArray : nat) : Handler nat :=
  k ← fresh;
  modify (on_recorders <[k := {| recStream := stream; recState := RSinactive;
                                 recChunks := chunksArray; recStopsQueued := 0 |}]>);;
  mret k.

(** [recorder.start()], for a recorder whose stream has a live track (on a
    stream with no live track the platform throws [NotSupportedError]
    after the check of the state; that branch is not modelled). *)
Definition recorder_start (k : nat) : Handler unit :=
  r ← read (fun w => recorders w !! k);
  match r with
  | Some rec =>
      match recState rec with
      | RSinactive =>
          modify (on_recorders <[k := {| recStream := recStream rec; recState := RSrecording;
                                         recChunks := recChunks rec;
                                         recStopsQueued := recStopsQueued rec |}]>)
      | _ => throw "InvalidStateError"
      end
  | None => skip
  end.

(** [recorder.stop()]: an active recorder becomes inactive at once and the
    platform queues the final [dataavailable] and [stop] events. *)
Definition recorder_stop (k : nat) : Handler unit :=
  r ← read (fun w => recorders w !! k);
  match r with
  | Some rec =>
      match recState rec with
      | RSinactive => skip
      | _ =>
          modify (on_recorders <[k := {| recStream := recStream rec; recState := RSinactive;
                                         recChunks := recChunks rec;
                                         recStopsQueued := S (recStopsQueued rec) |}]>)
      end
  | None => skip
  end.

Definition setTimeout_beginRecording : Handler unit :=
  t ← fresh; modify (on_timeouts (fun ts => {[t]} ∪ ts)).

Definition setInterval (cb : IntervalCallback) : Handler nat :=
  t ← fresh; modify (on_intervals <[t := cb]>);; mret t.

Definition clearInterval (t : nat) : Handler unit :=
  modify (on_intervals (delete t)).

(** ** The component's functions *)

(** [handlePermission] (lines 63-77), up to the [await]. *)
Definition handlePermission (r : Render) : Handler unit :=
  getUserMedia (selectedVideoDevice (snap r)) (selectedAudioDevice (snap r)).

(** ... its continuation when the promise resolves with [stream] ... *)
Definition handlePermission_resolved (stream : nat) : Handler unit :=
  setMediaStream (Some stream);;
  modify (on_srcObject (fun _ => Some stream)).

(** ... and its [catch] branch. *)
Definition handlePermission_rejected : Handler unit :=
  console_error "Permission denied".

(** [stopRecording] (lines 177-181) *)
Definition stopRecording : Handler unit :=
  rec ← read mediaRecorderRef;
  match rec with Some k => recorder_stop k | None => skip end;;
  setRecording false;;
  setRecordingTime 0.

(** [denyMediaPermissions] (lines 79-99) *)
Definition denyMediaPermissions (r : Render) : Handler unit :=
  match mediaStream (snap r) with
  | Some s => stream_stopTracks s
  | None => skip
  end;;
  rec ← read mediaRecorderRef;
  match rec with
  | Some k => recorder_stop k;; modify (on_mediaRecorderRef (fun _ => None))
  | None => skip
  end;;
  setRecording false;;
  setRecordingTime 0;;
  ctx ← read audioContextRef;
  match ctx with Some c => context_close c | None => skip end;;
  setMediaStream None.

(** [handleDeviceChange] (lines 101-108) *)
Definition handleDeviceChange (r : Render) : Handler unit :=
  match mediaStream (snap r) with
  | Some s => stream_stopTracks s;; setMediaStream None
  | None => skip
  end;;
  stopRecording;;
  handlePermission r.

(** The two [onChange] handlers of the selectors (lines 269-272, 286-289). *)
Definition onChangeVideoSource (r : Render) (value : string) : Handler unit :=
  setSelectedVideoDevice value;; handleDeviceChange r.
Definition onChangeAudioSource (r : Render) (value : string) : Handler unit :=
  setSelectedAudioDevice value;; handleDeviceChange r.

(** [analyser.fftSize = 256]; [frequencyBinCount] is half of it. *)
Definition fftSize : nat := 256.
Definition bufferLength : nat := fftSize / 2.

Definition byteValue (b : Byte.byte) : Z := Z.of_N (Byte.to_N b).

(** [requestAnimationFrame(updateVolume)] (line 132), for the [updateVolume]
    of context [c]: one more callback is pending.  The source never calls
    [cancelAnimationFrame]. *)
Definition requestAnimationFrame (c : nat) : Handler unit :=
  modify (on_animationFrames (fun pending => {[+ c +]} ⊎ pending)).

(** [updateVolume] (lines 127-133) for the analyser of context [c]. *)
Definition updateVolume (c : nat) : Handler unit :=
  ctx ← read (fun w => contexts w !! c);
  let dataArray := match ctx with
                   | Some x => ctxFrequencyData x
                   | None => repeat Byte.x00 bufferLength
                   end in
  let sum := foldl (fun a b => a + byteValue b) 0 dataArray in
  let average := (inject_Z sum / inject_Z (Z.of_nat (length dataArray)))%Q in
  setVolume average;;
  requestAnimationFrame c.

(** [setupAudioProcessing] (lines 110-135) *)
Definition setupAudioProcessing (stream : nat) : Handler unit :=
  old ← read audioContextRef;
  match old with Some c => context_close c | None => skip end;;
  c ← fresh;
  modify (on_contexts <[c := {| ctxStream := stream; ctxClosed := false;
                                ctxFrequencyData := repeat Byte.x00 bufferLength |}]>);;
  modify (on_audioContextRef (fun _ => Some c));;
  modify (on_analyserRef (fun _ => Some c));;
  updateVolume c.

(** [startRecording] (lines 137-160) *)
Definition startRecording (r : Render) : Handler unit :=
  setCountdown 3;;
  match mediaStream (snap r) with
  | Some s =>
      k ← new_MediaRecorder s (chunks r);
      modify (on_mediaRecorderRef (fun _ => Some k));;
      setTimeout_beginRecording
  | None => skip
  end.

(** The callback of the three-second timeout (lines 150-158). *)
Definition beginRecording : Handler unit :=
  setRecordingTime 0;;
  _ ← setInterval ElapsedTick;
  rec ← read mediaRecorderRef;
  match rec with Some k => recorder_start k | None => skip end;;
  setRecording true.

(** The two interval callbacks (lines 154 and 170). *)
Definition intervalCallback (cb : IntervalCallback) : Handler unit :=
  match cb with
  | ElapsedTick => updateRecordingTime (fun prevTime => prevTime + 1)
  | CountdownTick => updateCountdown (fun prevCountdown => prevCountdown - 1)
  end.

(** [ondataavailable] (lines 142-143): [chunks.push(event.data)] *)
Definition ondataavailable (chunksArray : nat) (data : Blob) : Handler unit :=
  modify (on_arrays (fun h => <[chunksArray := default [] (h !! chunksArray) ++ [data]]> h)).

(** [new Blob(parts, {type})] *)
Definition new_Blob (parts : list Blob) (type : string) : Handler Blob :=
  k ← fresh;
  mret {| blobId := k; blobType := type; blobData := concat (blobData <$> parts) |}.

(** [onstop] (lines 144-148) *)
Definition onstop (chunksArray : nat) : Handler unit :=
  parts ← read (fun w => default [] (arrays w !! chunksArray));
  blob ← new_Blob parts "video/webm";
  setRecordedVideo blob;;
  modify (on_arrays <[chunksArray := []]>).

(** [handleSubmit] (lines 183-191) *)
Definition handleSubmit (r : Render) : Handler unit :=
  match recordedVideo (snap r) with
  | Some _ =>
      stopRecording;;
      setIsSubmit true;;
      denyMediaPermissions r;;
      console_log "Recorded video saved:"
  | None => skip
  end.

(** The callback of [enumerateDevices().then] (lines 24-44); [closed] is the
    selection the effect's closure captured. *)
Definition devicesEnumerated (closed : string * string) (devices : list MediaDeviceInfo)
  : Handler unit :=
  let videoDevices := filter (fun device => kind device = videoinput) devices in
  let audioDevices := filter (fun device => kind device = audioinput) devices in
  setVideoDevices videoDevices;;
  setAudioDevices audioDevices;;
  match videoDevices with
  | first :: _ =>
      setSelectedVideoDevice (if truthy (fst closed) then fst closed else deviceId first)
  | [] => skip
  end;;
  match audioDevices with
  | first :: _ =>
      setSelectedAudioDevice (if truthy (snd closed) then snd closed else deviceId first)
  | [] => skip
  end.

(** ** Effects ([useEffect]) and rendering *)

(** Lines 22-49, dependencies [[mediaStream]]. *)
Definition effect_devices (r : Render) : Handler unit :=
  match mediaStream (snap r) with
  | Some _ => enumerateDevices (selectedVideoDevice (snap r), selectedAudioDevice (snap r))
  | None => setAudioDevices [];; setVideoDevices []
  end.

(** Lines 51-55, dependencies [[mediaStream]]. *)
Definition effect_audio (r : Render) : Handler unit :=
  match mediaStream (snap r) with
  | Some s => setupAudioProcessing s
  | None => skip
  end.

(** Lines 57-61, dependencies [[selectedVideoDevice, selectedAudioDevice]]. *)
Definition effect_reacquire (r : Render) : Handler unit :=
  if truthy (selectedAudioDevice (snap r)) && truthy (selectedVideoDevice (snap r))
     && bool_decide (mediaStream (snap r) ≠ None)
  then handlePermission r
  else skip.

(** Lines 162-175, dependencies [[countdown]]: the effect and its clean-up. *)
Definition effect_countdown (r : Render) : Handler unit :=
  if countdown (snap r) <=? 0 then modify (on_countdownCleanup (fun _ => None))
  else
    interval ← setInterval CountdownTick;
    modify (on_countdownCleanup (fun _ => Some interval)).

Definition cleanup_countdown : Handler unit :=
  c ← read countdownCleanup;
  match c with Some interval => clearInterval interval | None => skip end.

(** [URL.createObjectURL]: a new URL on every call. *)
Definition createObjectURL (b : Blob) : Handler string :=
  k ← fresh;
  let url := "blob:" +:+ toString (Z.of_nat k) in
  modify (on_objectURLs (fun us => {[url]} ∪ us));;
  mret url.

(** Lines 193-206, dependencies [[recordedVideo]]: the effect and its clean-up. *)
Definition effect_playback (r : Render) : Handler unit :=
  match recordedVideo (snap r) with
  | Some b =>
      videoURL ← createObjectURL b;
      setVideoSrc videoURL;;
      modify (on_videoURLCleanup (fun _ => Some videoURL))
  | None => modify (on_videoURLCleanup (fun _ => None))
  end.

Definition cleanup_playback : Handler unit :=
  c ← read videoURLCleanup;
  match c with
  | Some videoURL => modify (on_objectURLs (fun us => us ∖ {[videoURL]}))
  | None => skip
  end.

(** One call of the component function: the closures it creates capture the
    current state and a new, empty [chunks] array. *)
Definition render : Handler unit :=
  a ← fresh;
  modify (on_arrays <[a := []]>);;
  s ← read st;
  modify (on_view (fun _ => {| snap := s; chunks := a |}));;
  modify (on_dirty (fun _ => false)).

Definition when (b : bool) (h : Handler unit) : Handler unit := if b then h else skip.

(** The effects of the render [r] whose dependencies differ (by [Object.is])
    from those of the previous render [old]: first their clean-ups, then
    the effects, in source order. *)
Definition run_effects (old : ReactState) (r : Render) : Handler unit :=
  let new := snap r in
  let stream_changed := negb (bool_decide (mediaStream old = mediaStream new)) in
  let selection_changed :=
    negb (String.eqb (selectedVideoDevice old) (selectedVideoDevice new)
          && String.eqb (selectedAudioDevice old) (selectedAudioDevice new)) in
  let countdown_changed := negb (Z.eqb (countdown old) (countdown new)) in
  let video_changed :=
    negb (bool_decide (blobId <$> recordedVideo old = blobId <$> recordedVideo new)) in
  when countdown_changed cleanup_countdown;;
  when video_changed cleanup_playback;;
  when stream_changed (effect_devices r);;
  when stream_changed (effect_audio r);;
  when selection_changed (effect_reacquire r);;
  when countdown_changed (effect_countdown r);;
  when video_changed (effect_playback r).

(** A scheduled render followed by its effects. *)
Definition render_pass : Handler unit :=
  d ← read dirty;
  when d (
    old ← read (fun w => snap (view w));
    render;;
    r ← read view;
    run_effects old r).

(** React renders until no update is pending.  The effects only set the
    device lists, the volume and the video source, none of which is a
    dependency, so the second pass runs no effect and leaves nothing pending
    (lemma [commit_clean]). *)
Definition commit : Handler unit := render_pass;; render_pass.

(** ** The event loop *)

Inductive Event :=
  | ClickAskPermission
  | ChangeVideoSource (value : string)
  | ChangeAudioSource (value : string)
  | ClickRecordButton
  | ClickSubmit
  | UserMediaGranted (request : nat)
  | UserMediaDenied (request : nat)
  | DevicesEnumerated (request : nat) (devices : list MediaDeviceInfo)
  | EnumerationFailed (request : nat)
  | TimeoutFired (timer : nat)
  | IntervalFired (timer : nat)
  | DataAvailable (recorder : nat) (type : string) (data : list Byte.byte)
  | RecorderStopped (recorder : nat)
  | AudioProcessed (context : nat) (data : list Byte.byte)
  | AnimationFrame (context : nat).

(** The platform settles a [getUserMedia] promise with a new stream that has
    one live video track and one live audio track. *)
Definition userMediaGranted (k : nat) (ids : string * string) : Handler unit :=
  modify (on_userMediaRequests (delete k));;
  s ← fresh;
  modify (on_streams <[s := {| streamVideoId := fst ids; streamAudioId := snd ids;
                               tracks := [live; live] |}]>);;
  handlePermission_resolved s.

Definition userMediaDenied (k : nat) : Handler unit :=
  modify (on_userMediaRequests (delete k));;
  handlePermission_rejected.

Definition dataAvailable (rec : MediaRecorderObj) (type : string) (data : list Byte.byte)
  : Handler unit :=
  b ← fresh;
  ondataavailable (recChunks rec) {| blobId := b; blobType := type; blobData := data |}.

Definition recorderStopped (k : nat) (rec : MediaRecorderObj) : Handler unit :=
  modify (on_recorders <[k := {| recStream := recStream rec; recState := recState rec;
                                 recChunks := recChunks rec;
                                 recStopsQueued := pred (recStopsQueued rec) |}]>);;
  onstop (recChunks rec).

Definition audioProcessed (c : nat) (ctx : AudioContextObj) (data : list Byte.byte)
  : Handler unit :=
  modify (on_contexts <[c := {| ctxStream := ctxStream ctx; ctxClosed := ctxClosed ctx;
                                ctxFrequencyData := data |}]>).

(** The platform runs one pending [updateVolume] callback of context [c]. *)
Definition animationFrame (c : nat) : Handler unit :=
  modify (on_animationFrames (fun pending => pending ∖ {[+ c +]}));;
  updateVolume c.

Definition enabled_if {A} (b : bool) (x : A) : option A := if b then Some x else None.

(** The code an event runs, [None] when the event cannot happen in [w]:
    a button that is not rendered, an option that is not listed, a promise
    or timer that is not pending.  User-interface events run the closures
    of the last render. *)
Definition handler_of (e : Event) (w : World) : option (Handler unit) :=
  let r := view w in
  match e with
  | ClickAskPermission =>
      enabled_if (bool_decide (mediaStream (snap r) = None)) (handlePermission r)
  | ChangeVideoSource value =>
      enabled_if (bool_decide (value ∈ deviceId <$> videoDevices (snap r)))
            (onChangeVideoSource r value)
  | ChangeAudioSource value =>
      enabled_if (bool_decide (value ∈ deviceId <$> audioDevices (snap r)))
            (onChangeAudioSource r value)
  | ClickRecordButton =>
      enabled_if (bool_decide (mediaStream (snap r) ≠ None))
            (if recording (snap r) then stopRecording else startRecording r)
  | ClickSubmit =>
      enabled_if (bool_decide (mediaStream (snap r) ≠ None)) (handleSubmit r)
  | UserMediaGranted k => userMediaGranted k <$> userMediaRequests w !! k
  | UserMediaDenied k => (fun _ => userMediaDenied k) <$> userMediaRequests w !! k
  | DevicesEnumerated k devices =>
      (fun closed => modify (on_enumerations (delete k));; devicesEnumerated closed devices)
        <$> enumerations w !! k
  | EnumerationFailed k =>
      (fun _ => modify (on_enumerations (delete k))) <$> enumerations w !! k
  | TimeoutFired t =>
      enabled_if (bool_decide (t ∈ timeouts w))
            (modify (on_timeouts (fun ts => ts ∖ {[t]}));; beginRecording)
  | IntervalFired t => intervalCallback <$> intervals w !! t
  | DataAvailable k type data =>
      rec ← recorders w !! k;
      enabled_if (negb (bool_decide (recState rec = RSinactive))
             || negb (Nat.eqb (recStopsQueued rec) 0))
            (dataAvailable rec type data)
  | RecorderStopped k =>
      rec ← recorders w !! k;
      enabled_if (negb (Nat.eqb (recStopsQueued rec) 0)) (recorderStopped k rec)
  | AudioProcessed c data =>
      ctx ← contexts w !! c;
      enabled_if (negb (ctxClosed ctx) && Nat.eqb (length data) bufferLength)
            (audioProcessed c ctx data)
  | AnimationFrame c =>
      enabled_if (bool_decide (c ∈ animationFrames w)) (animationFrame c)
  end.

(** One turn of the event loop: the handler, then React's renders. *)
Definition dispatch (e : Event) (w : World) : option World :=
  (fun h => exec commit (exec h w)) <$> handler_of e w.

Fixpoint run (es : list Event) (w : World) : option World :=
  match es with
  | [] => Some w
  | e :: es' => w' ← dispatch e w; run es' w'
  end.

Definition initialState : ReactState :=
  {| mediaStream := None; videoDevices := []; audioDevices := [];
     recordingTime := 0; volume := 0%Q;
     selectedVideoDevice := ""; selectedAudioDevice := "";
     recording := false; videoSrc := ""; isSubmit := false;
     recordedVideo := None; countdown := 0 |}.

(** The world when the component function has run for the first time. *)
Definition firstRender : World :=
  {| st := initialState; dirty := false;
     view := {| snap := initialState; chunks := 0%nat |};
     mediaRecorderRef := None; audioContextRef := None; analyserRef := None;
     srcObject := None; countdownCleanup := None; videoURLCleanup := None;
     nextId := 1; streams := ∅; recorders := ∅; arrays := {[ 0%nat := [] ]};
     contexts := ∅; timeouts := ∅; intervals := ∅;
     userMediaRequests := ∅; enumerations := ∅; objectURLs := ∅; console := [];
     animationFrames := ∅ |}.

(** Mounting runs every effect once, then the renders they schedule. *)
Definition mount : Handler unit :=
  r ← read view;
  effect_devices r;;
  effect_audio r;;
  effect_reacquire r;;
  effect_countdown r;;
  effect_playback r;;
  commit.

Definition mounted : World := exec mount firstRender.

Definition reachable (w : World) : Prop := exists es, run es mounted = Some w.

(** The streams that still hold a device: those with a live track. *)
Definition holdsDevice (m : MediaStreamObj) : bool :=
  bool_decide (live ∈ tracks m).

(** The mean the volume meter is meant to show, as a rational number. *)
Definition meanAmplitude (data : list Byte.byte) : Q :=
  let total := foldr Z.add 0 (byteValue <$> data) in
  (inject_Z total / inject_Z (Z.of_nat (length data)))%Q.

(** ** Sample inputs *)

(** A microphone at full scale in every bin. *)
Definition fullScale : list Byte.byte := repeat Byte.xff bufferLength.

(** The audio context of the first stream once its analyser has seen a
    full-scale signal. *)
Definition fullScaleContext : AudioContextObj :=
  {| ctxStream := 3; ctxClosed := false; ctxFrequencyData := fullScale |}.

(** ** Vocabulary of the proofs *)

(** A handler respects a relation when every run, completed or thrown,
    relates the world before to the world after. *)
Definition respects (R : relation World) {A} (h : Handler A) : Prop :=
  forall w, R w (exec h w).

(** What code that is not part of the countdown leaves alone: the countdown
    itself, the closures of the last render, the clean-up of the countdown
    effect, and the armed countdown intervals (it arms none).  It never
    cancels a scheduled render either. *)
Record cd_frame (w w' : World) : Prop := {
  frame_countdown : countdown (st w') = countdown (st w);
  frame_view : view w' = view w;
  frame_cleanup : countdownCleanup w' = countdownCleanup w;
  frame_intervals : forall t, intervals w' !! t = Some CountdownTick ->
                              intervals w !! t = Some CountdownTick;
  frame_dirty : dirty w = true -> dirty w' = true }.

(** The invariant of the countdown between two turns of the event loop. *)
Record countdown_inv (w : World) : Prop := {
  inv_nonneg : 0 <= countdown (st w);
  inv_armed : forall t, intervals w !! t = Some CountdownTick ->
                        0 < countdown (st w) /\ countdownCleanup w = Some t;
  inv_rendered : countdown (snap (view w)) = countdown (st w) }.

(** What holds after a handler ran and before React rendered. *)
Record countdown_pending (w : World) : Prop := {
  pend_nonneg : 0 <= countdown (st w);
  pend_owner : forall t, intervals w !! t = Some CountdownTick ->
                         countdownCleanup w = Some t;
  pend_armed : countdown (snap (view w)) = countdown (st w) ->
               forall t, intervals w !! t = Some CountdownTick -> 0 < countdown (st w);
  pend_dirty : dirty w = false -> countdown (snap (view w)) = countdown (st w) }.

(** Pre- and postconditions of handlers; the postcondition is about the
    world the handler leaves, also when it throws. *)
Definition hoare (P : World -> Prop) {A} (h : Handler A) (Q : World -> Prop) : Prop :=
  forall w, P w -> Q (exec h w).

(** What holds while the effects of render [r] run: the render is current
    for the countdown, and every armed countdown interval is the one the
    effect owns and was armed for a positive countdown. *)
Record countdown_rendered (r : Render) (w : World) : Prop := {
  rend_nonneg : 0 <= countdown (st w);
  rend_view : view w = r;
  rend_current : countdown (snap r) = countdown (st w);
  rend_armed : forall t, intervals w !! t = Some CountdownTick ->
                         0 < countdown (st w) /\ countdownCleanup w = Some t }.

(** What holds when render [r] has just replaced a render with state [old]
    and no effect has run yet. *)
Record countdown_stale (old : ReactState) (r : Render) (w : World) : Prop := {
  stale_nonneg : 0 <= countdown (st w);
  stale_view : view w = r;
  stale_current : countdown (snap r) = countdown (st w);
  stale_owner : forall t, intervals w !! t = Some CountdownTick ->
                          countdownCleanup w = Some t;
  stale_armed : countdown old = countdown (snap r) ->
                forall t, intervals w !! t = Some CountdownTick -> 0 < countdown (st w) }.

(** No countdown interval is armed. *)
Definition disarmed (w : World) : Prop :=
  forall t, intervals w !! t <> Some CountdownTick.

(** A handler keeps a projection of the world when it never changes it. *)
Definition keeps {A} (f : World -> A) : relation World := fun w w' => f w' = f w.

(** Within one turn of the event loop no handler changes the closures of
    the last render, and a handler that schedules no render has not changed
    the state. *)
Record turn_frame (w w' : World) : Prop := {
  turn_view : view w' = view w;
  turn_clean : dirty w' = false -> st w' = st w /\ dirty w = false }.

(** The dependencies of the five effects. *)
Record same_deps (s s' : ReactState) : Prop := {
  deps_stream : mediaStream s = mediaStream s';
  deps_video : selectedVideoDevice s = selectedVideoDevice s';
  deps_audio : selectedAudioDevice s = selectedAudioDevice s';
  deps_countdown : countdown s = countdown s';
  deps_recorded : recordedVideo s = recordedVideo s' }.

(** No effect changes a dependency of an effect. *)
Record effect_frame (w w' : World) : Prop := {
  ef_deps : same_deps (st w') (st w);
  ef_turn : turn_frame w w' }.

(** Between two turns no render is pending and the closures of the last
    render hold the current state. *)
Record quiescent (w : World) : Prop := {
  quiet_clean : dirty w = false;
  quiet_current : snap (view w) = st w }.

(** After the first render pass of a turn. *)
Record settling (w : World) : Prop := {
  settling_deps : same_deps (snap (view w)) (st w);
  settling_clean : dirty w = false -> snap (view w) = st w }.

(** A handler completes when it never throws. *)
Definition completes {A} (h : Handler A) : Prop :=
  forall w, exists x, fst (h w) = Normal x.

(** ** Sample runs *)

(** The world after the events [es], when they can all happen. *)
Definition world_after (es : list Event) : World := default mounted (run es mounted).

Definition cam1 : MediaDeviceInfo :=
  {| deviceId := "cam1"; kind := videoinput; label := "Front camera" |}.
Definition cam2 : MediaDeviceInfo :=
  {| deviceId := "cam2"; kind := videoinput; label := "Rear camera" |}.
Definition mic1 : MediaDeviceInfo :=
  {| deviceId := "mic1"; kind := audioinput; label := "Microphone" |}.

(** The user asks for permission and is granted a stream; the devices are
    enumerated and the first camera and microphone become the selection;
    the selection effect re-acquires a stream for that pair, and the devices
    are enumerated again. *)
Definition acquire : list Event :=
  [ClickAskPermission; UserMediaGranted 2; DevicesEnumerated 5 [cam1; mic1; cam2];
   UserMediaGranted 8; DevicesEnumerated 11 [cam1; mic1; cam2]].

(** The session has been re-acquired for the default pair, the enumeration
    that acquisition asked for is still pending, and the user picks the
    second camera. *)
Definition staleEnumeration : list Event :=
  [ClickAskPermission; UserMediaGranted 2; DevicesEnumerated 5 [cam1; mic1; cam2];
   UserMediaGranted 8; ChangeVideoSource "cam2"].

(** Permission is granted and the analyser of the new audio context sees a
    full-scale signal. *)
Definition loudMicrophone : list Event :=
  [ClickAskPermission; UserMediaGranted 2; AudioProcessed 6 fullScale].

(** The user starts a recording and the countdown has ticked once. *)
Definition countingDown : list Event :=
  acquire ++ [ClickRecordButton; IntervalFired 17].

(** The countdown has run out and the three-second timeout is due. *)
Definition timeoutDue : list Event :=
  acquire ++ [ClickRecordButton; IntervalFired 17; IntervalFired 19; IntervalFired 21].

(** One complete recording cycle: three fragments, the last one flushed by
    [stop()]. *)
Definition recordingCycle : list Event :=
  timeoutDue ++
  [TimeoutFired 15;
   DataAvailable 14 "video/webm" [Byte.x01; Byte.x02];
   IntervalFired 23;
   DataAvailable 14 "video/webm" [Byte.x03];
   ClickRecordButton;
   DataAvailable 14 "video/webm" [Byte.x04];
   RecorderStopped 14].

(** ** Invariants between turns *)

(** At most one audio context is open, the one [audioContextRef] holds. *)
Definition one_open_context (w : World) : Prop :=
  forall c ctx, contexts w !! c = Some ctx -> ctxClosed ctx = false ->
                audioContextRef w = Some c.

(** Every identity the component holds was handed out by the platform
    before: it is below the next one. *)
Record allocated (w : World) : Prop := {
  alloc_stream : forall s, mediaStream (st w) = Some s -> (s < nextId w)%nat;
  alloc_blob : forall b, recordedVideo (st w) = Some b -> (blobId b < nextId w)%nat;
  alloc_streams : forall s m, streams w !! s = Some m -> (s < nextId w)%nat;
  alloc_intervals : forall t cb, intervals w !! t = Some cb -> (t < nextId w)%nat;
  alloc_cleanup : forall c, countdownCleanup w = Some c ->
                            (c < nextId w)%nat /\ intervals w !! c <> Some ElapsedTick }.

(** The interval [t] runs the elapsed-time callback (line 153), and the
    identities are fresh. *)
Definition ticking (t : nat) (w : World) : Prop :=
  allocated w /\ intervals w !! t = Some ElapsedTick.

(** The object URLs the page holds are the one URL the playback effect will
    revoke, and that URL is the video source. *)
Definition urls_owned (w : World) : Prop :=
  match videoURLCleanup w with
  | Some u => objectURLs w = {[u]} /\ videoSrc (st w) = u
  | None => objectURLs w = ∅
  end.

(** The playback effect has run for a render with the recording [o]. *)
Definition playback_of (o : option Blob) (w : World) : Prop :=
  urls_owned w /\ (is_Some (videoURLCleanup w) <-> is_Some o).

Definition playback_fields (w : World) :=
  (objectURLs w, videoURLCleanup w, videoSrc (st w)).

(** The playback effect has run for the closures of the last render. *)
Definition playback_current (w : World) : Prop :=
  playback_of (recordedVideo (snap (view w))) w.

(** What no render touches: the session, the recorder, the selection and
    the scheduled start. *)
Definition untouched_by_render (w : World) :=
  (mediaStream (st w), isSubmit (st w), recording (st w), recordingTime (st w),
   recordedVideo (st w), countdown (st w),
   selectedVideoDevice (st w), selectedAudioDevice (st w),
   mediaRecorderRef w, srcObject w, streams w, recorders w, timeouts w, console w).

(** Every audio context has an [updateVolume] callback pending. *)
Definition loops_running (w : World) : Prop :=
  forall c, is_Some (contexts w !! c) -> c ∈ animationFrames w.




(** * Properties *)

(** ** formatTime *)

Lemma roundHalfEven_cases a b :
  roundHalfEven a b = a / b \/
  (roundHalfEven a b = a / b + 1 /\ b <= 2 * (a mod b)).
Proof.
  unfold roundHalfEven.
  destruct (2 * (a mod b) <? b) eqn:E1; [now left|].
  apply Z.ltb_ge in E1.
  destruct (b <? 2 * (a mod b)); [now right|].
  destruct (Z.even (a / b)); [now left | now right].
Qed.

Lemma round_scaled_floor a b P :
  0 <= a -> 0 < b -> 0 < P -> b < 2 * P ->
  roundHalfEven (a * P) b / P = a / b.
Proof.
  intros Ha Hb HP Hlt.
  pose proof (Z.div_mod a b ltac:(lia)) as Ea.
  pose proof (Z.mod_pos_bound a b Hb) as Br.
  set (n := a / b) in *. set (r := a mod b) in *.
  pose proof (Z.div_mod (a * P) b ltac:(lia)) as Ex.
  pose proof (Z.mod_pos_bound (a * P) b Hb) as Bx.
  assert (Hn : 0 <= n) by (apply Z.div_pos; lia).
  symmetry.
  destruct (roundHalfEven_cases (a * P) b) as [-> | [-> Hhalf]].
  - apply (Z.div_unique _ _ _ ((a * P) / b - n * P)); nia.
  - apply (Z.div_unique _ _ _ ((a * P) / b + 1 - n * P)); nia.
Qed.

Lemma binade_le a b : binade a b <= Z.log2 a - Z.log2 b.
Proof.
  unfold binade. destruct (scaled a b (Z.log2 a - Z.log2 b)) as [x y].
  destruct (y <=? x); lia.
Qed.

(** Below [2^53] the rounding of the quotient never reaches the next
    integer: [Math.floor(a / b)] is the integer quotient. *)
Lemma Math_floor_div a b :
  0 <= a < 2 ^ 53 -> 0 < b -> Math_floor (number_div a b) = a / b.
Proof.
  intros [Ha Hlt] Hb. unfold number_div.
  destruct (Z.eqb_spec a 0) as [->|Hne]; [reflexivity|].
  rewrite Z.abs_eq, Z.sgn_pos by lia.
  unfold nearestDouble.
  pose proof (binade_le a b) as Hbin.
  assert (Hla : Z.log2 a <= 52).
  { assert (Z.log2 a < 53) by (apply Z.log2_lt_pow2; lia). lia. }
  pose proof (Z.log2_nonneg b) as Hlb0.
  pose proof (Z.log2_spec b Hb) as [_ Hlb].
  set (e := binade a b - 52) in *.
  assert (He : e <= - Z.log2 b) by lia.
  assert (Hpow : 2 ^ Z.succ (Z.log2 b) <= 2 * 2 ^ (- e)).
  { rewrite Z.pow_succ_r by lia. apply Z.mul_le_mono_nonneg_l; [lia|].
    apply Z.pow_le_mono_r; lia. }
  assert (HP : 0 < 2 ^ (- e)) by (apply Z.pow_pos_nonneg; lia).
  unfold scaled, Math_floor.
  destruct (0 <=? e) eqn:E0; cbv beta iota zeta; rewrite E0, Z.mul_1_l.
  - apply Z.leb_le in E0. assert (E : e = 0) by lia. rewrite E in *.
    change (2 ^ 0) with 1. change (2 ^ (- 0)) with 1 in *. rewrite !Z.mul_1_r.
    rewrite <- (round_scaled_floor a b 1) by lia.
    now rewrite Z.mul_1_r, Z.div_1_r.
  - apply Z.leb_gt in E0. apply round_scaled_floor; lia.
Qed.

Lemma Math_floor_integer n : Math_floor (number_of_Z n) = n.
Proof. unfold Math_floor, number_of_Z. cbn. lia. Qed.

Lemma toString_safe n : Z.abs n < 2 ^ 53 -> toString n = decimal n.
Proof. intros H. unfold toString. apply Z.ltb_lt in H. now rewrite H. Qed.

Lemma toString_value n : 0 <= n < 2 ^ 53 -> decimal_value (toString n) = Some n.
Proof.
  intros Hn. rewrite toString_safe by lia. unfold decimal_value, decimal.
  destruct n as [|p|p]; [reflexivity| |lia].
  cbn [Z.to_int NilZero.string_of_int].
  rewrite NilZero.usu by apply Unsigned.to_uint_nonnil.
  cbn. unfold Z.of_uint. now rewrite Unsigned.of_to.
Qed.

Lemma toString_nonempty n : 0 <= n < 2 ^ 53 -> (1 <= String.length (toString n))%nat.
Proof.
  intros Hn. pose proof (toString_value n Hn) as H.
  destruct (toString n); [discriminate H | cbn; lia].
Qed.

Lemma decimal_value_leading_zero c s :
  decimal_value (String "0" (String c s)) = decimal_value (String c s).
Proof.
  unfold decimal_value.
  cbn [NilZero.uint_of_string NilEmpty.uint_of_string].
  destruct (uint_of_char c (NilEmpty.uint_of_string s)); reflexivity.
Qed.

Lemma padStart_2_value s v :
  (1 <= String.length s)%nat -> decimal_value s = Some v ->
  decimal_value (padStart 2 "0" s) = Some v /\
  (2 <= String.length (padStart 2 "0" s))%nat.
Proof.
  intros Hl Hv. unfold padStart.
  destruct (2 <=? String.length s)%nat eqn:E.
  - apply Nat.leb_le in E. auto.
  - apply Nat.leb_gt in E.
    destruct s as [|c [|c' s']]; cbn in Hl, E; try lia.
    change (fill (2 - String.length (String c "")) "0" "0" +:+ String c "")
      with (String "0" (String c "")).
    rewrite decimal_value_leading_zero. split; [assumption | cbn; lia].
Qed.

(** Below [2^53] the three fields are the integer quotients and remainders. *)
Lemma formatTime_safe (s : Z) :
  0 <= s < 2 ^ 53 ->
  formatTime s =
    padStart 2 "0" (toString (s / 3600)) +:+ ":" +:+
    padStart 2 "0" (toString (s mod 3600 / 60)) +:+ ":" +:+
    padStart 2 "0" (toString (s mod 60)).
Proof.
  intros Hs. unfold formatTime.
  rewrite (Z.rem_mod_nonneg s 3600), (Z.rem_mod_nonneg s 60) by lia.
  pose proof (Z.mod_pos_bound s 3600 ltac:(lia)).
  rewrite !Math_floor_div, Math_floor_integer by lia.
  reflexivity.
Qed.

(** C10, as the code has it.  For every non-negative integer number of
    seconds [s] below 2^53, [formatTime s] is [hh:mm:ss] where each of the
    three fields is a string of at least two decimal digits, the minutes
    and seconds fields denote numbers below 60, and
    hours * 3600 + minutes * 60 + seconds = [s]. *)
Theorem formatTime_fields (s : Z) :
  0 <= s < 2 ^ 53 ->
  exists hh mm ss H M S,
    formatTime s = hh +:+ ":" +:+ mm +:+ ":" +:+ ss /\
    (2 <= String.length hh)%nat /\ (2 <= String.length mm)%nat /\
    (2 <= String.length ss)%nat /\
    decimal_value hh = Some H /\ decimal_value mm = Some M /\
    decimal_value ss = Some S /\
    0 <= H /\ 0 <= M < 60 /\ 0 <= S < 60 /\ H * 3600 + M * 60 + S = s.
Proof.
  intros Hs. rewrite formatTime_safe by exact Hs.
  assert (Hh : 0 <= s / 3600 < 2 ^ 53).
  { split; [apply Z.div_pos; lia | apply Z.div_lt_upper_bound; lia]. }
  pose proof (Z.mod_pos_bound s 3600 ltac:(lia)) as B1.
  pose proof (Z.mod_pos_bound s 60 ltac:(lia)) as B2.
  assert (Hm : 0 <= s mod 3600 / 60 < 60).
  { split; [apply Z.div_pos; lia | apply Z.div_lt_upper_bound; lia]. }
  assert (Hm' : 0 <= s mod 3600 / 60 < 2 ^ 53) by lia.
  assert (Hsec : 0 <= s mod 60 < 2 ^ 53) by lia.
  destruct (padStart_2_value _ _ (toString_nonempty _ Hh) (toString_value _ Hh))
    as [V1 L1].
  destruct (padStart_2_value _ _ (toString_nonempty _ Hm') (toString_value _ Hm'))
    as [V2 L2].
  destruct (padStart_2_value _ _ (toString_nonempty _ Hsec) (toString_value _ Hsec))
    as [V3 L3].
  eexists _, _, _, _, _, _.
  split; [reflexivity|]. repeat (split; [eassumption || lia|]).
  pose proof (Z.div_mod s 3600 ltac:(lia)).
  pose proof (Z.div_mod (s mod 3600) 60 ltac:(lia)).
  pose proof (Z.div_mod s 60 ltac:(lia)).
  pose proof (Z.mod_pos_bound (s mod 3600) 60 ltac:(lia)).
  lia.
Qed.

Lemma formatTime_fields_witness :
  exists hh mm ss H M S,
    formatTime 3725 = hh +:+ ":" +:+ mm +:+ ":" +:+ ss /\
    (2 <= String.length hh)%nat /\ (2 <= String.length mm)%nat /\
    (2 <= String.length ss)%nat /\
    decimal_value hh = Some H /\ decimal_value mm = Some M /\
    decimal_value ss = Some S /\
    0 <= H /\ 0 <= M < 60 /\ 0 <= S < 60 /\ H * 3600 + M * 60 + S = 3725.
Proof. apply (formatTime_fields 3725). lia. Defined.

Example formatTime_3725 : formatTime 3725 = "01:02:05".
Proof. vm_compute. reflexivity. Qed.

Example formatTime_100_hours : formatTime 360000 = "100:00:00".
Proof. vm_compute. reflexivity. Qed.

(** *** Above 2^53 *)

(** A string that denotes a number holds no colon, so a string has at most
    one reading as three fields of digits. *)
Lemma digits_no_colon c s v :
  decimal_value (String c s) = Some v ->
  c <> ":"%char /\ (s = "" \/ exists v', decimal_value s = Some v').
Proof.
  unfold decimal_value. cbn [NilZero.uint_of_string NilEmpty.uint_of_string].
  intros H.
  destruct (NilEmpty.uint_of_string s) as [u|] eqn:E; [|discriminate H].
  split.
  - intros ->. discriminate H.
  - destruct s as [|c' s']; [now left|right].
    cbn [NilZero.uint_of_string]. rewrite E. eexists. reflexivity.
Qed.

Lemma fields_split hh hh' rest rest' v v' :
  decimal_value hh = Some v -> decimal_value hh' = Some v' ->
  hh +:+ ":" +:+ rest = hh' +:+ ":" +:+ rest' -> hh = hh' /\ rest = rest'.
Proof.
  revert hh' v v'. induction hh as [|c s IH]; intros hh' v v' H H' E.
  - discriminate H.
  - destruct hh' as [|c' s']; [discriminate H'|].
    change (String c (s +:+ ":" +:+ rest) = String c' (s' +:+ ":" +:+ rest')) in E.
    injection E as -> E.
    destruct (digits_no_colon _ _ _ H) as [_ [->|[u Hu]]],
             (digits_no_colon _ _ _ H') as [_ [->|[u' Hu']]].
    + change (String ":" rest = String ":" rest') in E. now injection E as ->.
    + destruct s' as [|c2 s2]; [discriminate Hu'|].
      change (String ":" rest = String c2 (s2 +:+ ":" +:+ rest')) in E.
      injection E as <- _. now destruct (digits_no_colon _ _ _ Hu') as [[] _].
    + destruct s as [|c2 s2]; [discriminate Hu|].
      change (String c2 (s2 +:+ ":" +:+ rest) = String ":" rest') in E.
      injection E as -> _. now destruct (digits_no_colon _ _ _ Hu) as [[] _].
    + destruct (IH s' u u' Hu Hu' E) as [-> ->]. auto.
Qed.

Lemma last_field_split ss ss' v v' :
  decimal_value ss = Some v -> decimal_value ss' = Some v' -> ss = ss' -> v = v'.
Proof. intros H H' <-. congruence. Qed.

(** Two to the power seventy seconds: the quotient by 3600 is rounded to a
    double and printed with the sixteen digits that identify that double,
    so the hours the string shows are not the hours of [s]. *)
Lemma formatTime_fields_fail_above_2_53 :
  formatTime (2 ^ 70) = "327942116865947600:17:04" /\
  ~ exists hh mm ss H M S,
      formatTime (2 ^ 70) = hh +:+ ":" +:+ mm +:+ ":" +:+ ss /\
      (2 <= String.length hh)%nat /\ (2 <= String.length mm)%nat /\
      (2 <= String.length ss)%nat /\
      decimal_value hh = Some H /\ decimal_value mm = Some M /\
      decimal_value ss = Some S /\
      0 <= H /\ 0 <= M < 60 /\ 0 <= S < 60 /\ H * 3600 + M * 60 + S = 2 ^ 70.
Proof.
  assert (E : formatTime (2 ^ 70) =
              "327942116865947600" +:+ ":" +:+ "17" +:+ ":" +:+ "04")
    by (vm_compute; reflexivity).
  split; [exact E|].
  intros (hh & mm & ss & H & M & S & Hf & _ & _ & _ & Hh & Hm & Hss & _ & _ & _ & Hsum).
  rewrite E in Hf.
  destruct (fields_split "327942116865947600" hh _ _ 327942116865947600 H
              ltac:(vm_compute; reflexivity) Hh Hf) as [<- Hf'].
  destruct (fields_split "17" mm _ _ 17 M ltac:(vm_compute; reflexivity) Hm Hf')
    as [<- <-].
  vm_compute in Hh, Hm, Hss.
  injection Hh as <-. injection Hm as <-. injection Hss as <-.
  vm_compute in Hsum. discriminate Hsum.
Qed.

(** ** Running handlers *)

Lemma exec_bind {A B} (m : Handler A) (k : A -> Handler B) w :
  exec (m ≫= k) w =
  match m w with
  | (Normal x, w') => exec (k x) w'
  | (Thrown _, w') => w'
  end.
Proof. unfold exec, mbind, Handler_bind. destruct (m w) as [[x|e] w']; reflexivity. Qed.

Lemma exec_read {A B} (f : World -> A) (k : A -> Handler B) w :
  exec (read f ≫= k) w = exec (k (f w)) w.
Proof. reflexivity. Qed.

Lemma exec_modify {B} (f : World -> World) (k : unit -> Handler B) w :
  exec (modify f ≫= k) w = exec (k tt) (f w).
Proof. reflexivity. Qed.

Lemma exec_setState same upd w :
  exec (setState same upd) w =
  if same (st w) then w else on_dirty (fun _ => true) (on_st upd w).
Proof. reflexivity. Qed.

Lemma exec_setState_bind {B} same upd (k : unit -> Handler B) w :
  exec (setState same upd ≫= k) w = exec (k tt) (exec (setState same upd) w).
Proof. reflexivity. Qed.

(** ** The volume sample *)

Lemma byteValue_bounds b : 0 <= byteValue b <= 255.
Proof. unfold byteValue. pose proof (Byte.to_N_bounded b). lia. Qed.

Lemma foldl_amplitudes data acc :
  foldl (fun a b => a + byteValue b) acc data = acc + foldr Z.add 0 (byteValue <$> data).
Proof.
  revert acc. induction data as [|b data IH]; intros acc; cbn; [lia|].
  rewrite IH. lia.
Qed.

Lemma amplitudes_bounds data :
  0 <= foldr Z.add 0 (byteValue <$> data) <= 255 * Z.of_nat (length data).
Proof.
  induction data as [|b data IH]; cbn [foldr fmap list_fmap length]; [lia|].
  pose proof (byteValue_bounds b). lia.
Qed.

Lemma meanAmplitude_bounds data :
  data <> [] -> (0 <= meanAmplitude data <= 255)%Q.
Proof.
  intros Hne. unfold meanAmplitude.
  pose proof (amplitudes_bounds data) as [H0 H1].
  assert (Hl : 0 < Z.of_nat (length data)) by (destruct data; [congruence | cbn; lia]).
  set (t := foldr Z.add 0 (byteValue <$> data)) in *.
  set (n := Z.of_nat (length data)) in *.
  assert (Hn : (0 < inject_Z n)%Q).
  { change 0%Q with (inject_Z 0). now rewrite <- Zlt_Qlt. }
  split.
  - apply Qle_shift_div_l; [exact Hn|].
    rewrite Qmult_0_l. change 0%Q with (inject_Z 0). now rewrite <- Zle_Qle.
  - apply Qle_shift_div_r; [exact Hn|].
    change 255%Q with (inject_Z 255). rewrite <- inject_Z_mult, <- Zle_Qle. lia.
Qed.

Lemma setVolume_volume v w : (volume (st (exec (setVolume v) w)) == v)%Q.
Proof.
  unfold setVolume. rewrite exec_setState.
  destruct (Qeq_bool (volume (st w)) v) eqn:E.
  - now apply Qeq_bool_iff.
  - destruct w as [[] ]; reflexivity.
Qed.

Lemma st_requestAnimationFrame c w : st (exec (requestAnimationFrame c) w) = st w.
Proof. destruct w. reflexivity. Qed.

Lemma updateVolume_volume c ctx w :
  contexts w !! c = Some ctx ->
  (volume (st (exec (updateVolume c) w)) == meanAmplitude (ctxFrequencyData ctx))%Q.
Proof.
  intros Hc. unfold updateVolume. rewrite exec_read, Hc.
  rewrite foldl_amplitudes, Z.add_0_l.
  unfold setVolume. rewrite exec_setState_bind, st_requestAnimationFrame.
  apply setVolume_volume.
Qed.

(** C4, as the code has it.  On every iteration of the sampling loop of an
    analyser whose data array has [bufferLength] = 128 bins, the published
    volume is the mean of the bins and lies between 0 and 255 (the bins are
    unsigned bytes and the mean is not rescaled). *)
Theorem volume_sample_is_mean (w : World) (c : nat) (ctx : AudioContextObj) :
  contexts w !! c = Some ctx ->
  length (ctxFrequencyData ctx) = bufferLength ->
  let sample := volume (st (exec (updateVolume c) w)) in
  (sample == meanAmplitude (ctxFrequencyData ctx))%Q /\ (0 <= sample <= 255)%Q.
Proof.
  intros Hc Hl sample.
  assert (Hm : (sample == meanAmplitude (ctxFrequencyData ctx))%Q)
    by (apply updateVolume_volume; assumption).
  split; [exact Hm|]. rewrite Hm. apply meanAmplitude_bounds.
  intros E. rewrite E in Hl. discriminate Hl.
Qed.

Lemma volume_sample_is_mean_witness :
  let sample := volume (st (exec (updateVolume 6) (world_after loudMicrophone))) in
  (sample == meanAmplitude fullScale)%Q /\ (0 <= sample <= 255)%Q.
Proof.
  apply (volume_sample_is_mean (world_after loudMicrophone) 6%nat fullScaleContext);
    vm_compute; reflexivity.
Defined.

(** C4, as the spec words it, fails: after permission is granted and the
    analyser has seen a full-scale signal, the next animation frame
    publishes 255, which is above 100. *)
Lemma volume_sample_exceeds_100 :
  exists w,
    run (loudMicrophone ++ [AnimationFrame 6]) mounted = Some w /\
    (100 < volume (st w))%Q.
Proof. eexists. split; vm_compute; reflexivity. Qed.

(** ** Frames: what a handler leaves alone *)

Section Respects.
Context (R : relation World) `{!PreOrder R}.

Lemma respects_ret {A} (x : A) : respects R (mret x).
Proof. intros w. reflexivity. Qed.

Lemma respects_skip : respects R skip.
Proof. intros w. reflexivity. Qed.

Lemma respects_read {A} (f : World -> A) : respects R (read f).
Proof. intros w. reflexivity. Qed.

Lemma respects_throw {A} e : respects R (@throw A e).
Proof. intros w. reflexivity. Qed.

Lemma respects_bind {A B} (m : Handler A) (k : A -> Handler B) :
  respects R m -> (forall x, respects R (k x)) -> respects R (m ≫= k).
Proof.
  intros Hm Hk w. rewrite exec_bind.
  specialize (Hm w). unfold exec in Hm.
  destruct (m w) as [[x|e] w']; cbn in Hm; [|exact Hm].
  etransitivity; [exact Hm | apply Hk].
Qed.

Lemma respects_when b (h : Handler unit) : respects R h -> respects R (when b h).
Proof. intros Hh. destruct b; [exact Hh | apply respects_skip]. Qed.

Lemma respects_modify (f : World -> World) :
  (forall w, R w (f w)) -> respects R (modify f).
Proof. intros Hf w. apply Hf. Qed.
End Respects.

#[global] Instance cd_frame_preorder : PreOrder cd_frame.
Proof.
  split.
  - intros w. split; auto.
  - intros w1 w2 w3 [] []. split; try congruence; auto.
Qed.

Local Abbreviation framed := (respects cd_frame).

(** A primitive update respects a relation by computation on the fields. *)
Ltac frame_of_update :=
  intros [[] ? ? ? ? ? ? ? ? ? ? ? ? ? ? ? ? ? ? ? ?];
  first [ exact eq_refl
        | split; cbn; auto; try (intros; discriminate) ].

Lemma respects_setState (R : relation World) `{!PreOrder R} same upd :
  (forall w, R w (on_dirty (fun _ => true) (on_st upd w))) ->
  respects R (setState same upd).
Proof.
  intros Hupd w. rewrite exec_setState.
  destruct (same (st w)); [reflexivity | apply Hupd].
Qed.

(** Arming the elapsed-time interval arms no countdown interval. *)
Lemma frame_setInterval_elapsed : framed (setInterval ElapsedTick).
Proof.
  intros [[] ? ? ? ? ? ? ? ? ? ? ? ? ? ? itv ? ? ? ? ?].
  unfold exec, setInterval, fresh, read, modify, mbind, mret, Handler_bind, Handler_ret.
  split; cbn; auto.
  intros t' Ht'. destruct (decide (nextId0 = t')) as [->|Hne].
  - rewrite lookup_insert_eq in Ht'. discriminate Ht'.
  - now rewrite lookup_insert_ne in Ht'.
Qed.

Ltac head_of t :=
  lazymatch t with
  | ?f _ => head_of f
  | _ => t
  end.

(** Syntax-directed proof that a handler respects a relation: split at every
    bind and branch, unfold the function called, discharge each primitive
    update by computation. *)
Ltac frame_step :=
  lazymatch goal with
  | |- respects ?R (_ ≫= _) => apply (respects_bind R); [|intros]
  | |- respects ?R (when _ _) => apply (respects_when R)
  | |- respects ?R skip => apply (respects_skip R)
  | |- respects ?R (read _) => apply (respects_read R)
  | |- respects ?R (throw _) => apply (respects_throw R)
  | |- respects ?R (mret _) => apply (respects_ret R)
  | |- respects cd_frame (setInterval ElapsedTick) => apply frame_setInterval_elapsed
  | |- respects ?R (setState _ _) => apply (respects_setState R); frame_of_update
  | |- respects ?R (modify _) => apply (respects_modify R); frame_of_update
  | |- respects _ (match ?x with _ => _ end) => destruct x
  | |- respects _ ?h => let f := head_of h in progress unfold f; cbv zeta
  end.

Ltac frame := repeat frame_step.

Lemma frame_stopRecording : framed stopRecording.
Proof. frame. Qed.

Lemma frame_handleSubmit r : framed (handleSubmit r).
Proof. frame. Qed.

Lemma frame_beginRecording : framed beginRecording.
Proof. frame. Qed.

Lemma frame_onChangeVideoSource r v : framed (onChangeVideoSource r v).
Proof. frame. Qed.

Lemma frame_onChangeAudioSource r v : framed (onChangeAudioSource r v).
Proof. frame. Qed.

Lemma frame_devicesEnumerated c d : framed (devicesEnumerated c d).
Proof. frame. Qed.

Lemma frame_onstop a : framed (onstop a).
Proof. frame. Qed.

Lemma frame_effects r :
  framed (effect_devices r) /\ framed (effect_audio r) /\
  framed (effect_reacquire r) /\ framed (effect_playback r) /\
  framed cleanup_playback.
Proof. repeat apply conj; frame. Qed.

(** ** The countdown never goes below zero *)

Lemma hoare_bind {A B} (P Q1 Q : World -> Prop) (m : Handler A) (k : A -> Handler B) :
  hoare P m Q1 -> (forall w, Q1 w -> Q w) -> (forall x, hoare Q1 (k x) Q) ->
  hoare P (m ≫= k) Q.
Proof.
  intros Hm HQ Hk w HP. rewrite exec_bind.
  specialize (Hm w HP). unfold exec in Hm.
  destruct (m w) as [[x|e] w']; cbn in Hm; [apply Hk, Hm | apply HQ, Hm].
Qed.

Lemma hoare_seq (P : World -> Prop) (m k : Handler unit) :
  hoare P m P -> hoare P k P -> hoare P (m;; k) P.
Proof. intros Hm Hk. apply (hoare_bind P P P); auto. Qed.

Lemma hoare_when (P : World -> Prop) b (h : Handler unit) :
  hoare P h P -> hoare P (when b h) P.
Proof. intros Hh. destruct b; [exact Hh | intros w Hw; exact Hw]. Qed.

Lemma inv_pending w : countdown_inv w -> countdown_pending w.
Proof.
  intros [H1 H2 H3]. split; auto.
  - intros t Ht. apply H2, Ht.
  - intros _ t Ht. apply H2 in Ht. tauto.
Qed.

Lemma rendered_inv r w : countdown_rendered r w -> countdown_inv w.
Proof. intros [H1 H2 H3 H4]. split; auto. now rewrite H2. Qed.

Lemma pending_framed {A} (h : Handler A) :
  framed h -> hoare countdown_pending h countdown_pending.
Proof.
  intros Hf w [H1 H2 H3 H4]. destruct (Hf w) as [F1 F2 F3 F4 F5].
  split.
  - now rewrite F1.
  - intros t Ht. rewrite F3. auto.
  - rewrite F1, F2. intros E t Ht. eauto.
  - rewrite F1, F2. intros D. apply H4.
    destruct (dirty w); [specialize (F5 eq_refl); congruence | reflexivity].
Qed.

Lemma rendered_framed {A} r (h : Handler A) :
  framed h -> hoare (countdown_rendered r) h (countdown_rendered r).
Proof.
  intros Hf w [H1 H2 H3 H4]. destruct (Hf w) as [F1 F2 F3 F4 F5].
  split.
  - now rewrite F1.
  - now rewrite F2.
  - now rewrite F1.
  - intros t Ht. rewrite F1, F3. auto.
Qed.

Lemma disarmed_framed {A} r (h : Handler A) :
  framed h ->
  hoare (fun w => countdown_rendered r w /\ disarmed w) h
        (fun w => countdown_rendered r w /\ disarmed w).
Proof.
  intros Hf w [Hr Hd]. split; [now apply rendered_framed|].
  intros t Ht. destruct (Hf w) as [_ _ _ F4 _]. apply (Hd t), F4, Ht.
Qed.

(** The clean-up of the countdown effect disarms the only interval there is. *)
Lemma cleanup_countdown_disarms old r :
  hoare (countdown_stale old r) cleanup_countdown
        (fun w => countdown_rendered r w /\ disarmed w).
Proof.
  intros w [H1 H2 H3 H4 H5]. unfold cleanup_countdown. rewrite exec_read.
  destruct w as [s ? v ? ? ? ? [c|] ? ? ? ? ? ? ? itv ? ? ? ? ?]; cbn in *.
  - assert (Hd : forall t, delete c itv !! t <> Some CountdownTick).
    { intros t Ht. destruct (decide (c = t)) as [->|Hne].
      - rewrite lookup_delete_eq in Ht. discriminate.
      - rewrite lookup_delete_ne in Ht by assumption.
        apply H4 in Ht. congruence. }
    split; [split; cbn; auto; intros t Ht; destruct (Hd t Ht) | exact Hd].
  - assert (Hd : forall t, itv !! t <> Some CountdownTick).
    { intros t Ht. apply H4 in Ht. discriminate. }
    split; [split; cbn; auto; intros t Ht; destruct (Hd t Ht) | exact Hd].
Qed.

(** The countdown effect arms an interval only for a positive countdown. *)
Lemma effect_countdown_arms r :
  hoare (fun w => countdown_rendered r w /\ disarmed w) (effect_countdown r)
        (countdown_rendered r).
Proof.
  intros w [[H1 H2 H3 H4] Hd]. unfold effect_countdown.
  destruct (countdown (snap r) <=? 0) eqn:E.
  - destruct w; split; cbn in *; auto. intros t Ht. destruct (Hd t Ht).
  - apply Z.leb_gt in E.
    destruct w as [s ? v ? ? ? ? ? ? n ? ? ? ? ? itv ? ? ? ? ?].
    unfold exec, setInterval, fresh, read, modify, mbind, mret, Handler_bind, Handler_ret.
    cbn in *. split; cbn; auto.
    intros t Ht. destruct (decide (n = t)) as [->|Hne].
    + split; [lia | reflexivity].
    + rewrite lookup_insert_ne in Ht by assumption. destruct (Hd t Ht).
Qed.

Lemma run_effects_countdown old r :
  hoare (countdown_stale old r) (run_effects old r) (countdown_rendered r).
Proof.
  unfold run_effects.
  destruct (frame_effects r) as (Fd & Fa & Fr & Fp & Fc).
  destruct (countdown old =? countdown (snap r)) eqn:E; cbn [negb].
  - apply Z.eqb_eq in E.
    apply (hoare_bind _ (countdown_rendered r)); [| auto |intros _].
    { intros w [H1 H2 H3 H4 H5]. change (exec (when false cleanup_countdown) w) with w.
      split; auto. intros t Ht. split; eauto. }
    repeat (apply hoare_seq; [apply hoare_when; now apply rendered_framed|]).
    apply hoare_seq; [intros w Hw; exact Hw|].
    apply hoare_when. now apply rendered_framed.
  - set (Q := fun w => countdown_rendered r w /\ disarmed w).
    apply (hoare_bind _ Q); [apply cleanup_countdown_disarms | intros w Hw; apply Hw |intros _].
    do 4 (apply (hoare_bind Q Q); [apply hoare_when; now apply disarmed_framed
                                   | intros w Hw; apply Hw | intros _]).
    apply (hoare_bind Q (countdown_rendered r)); [apply effect_countdown_arms | auto |intros _].
    apply hoare_when. now apply rendered_framed.
Qed.

Lemma render_world w :
  exists w', render w = (Normal tt, w') /\
    st w' = st w /\ view w' = {| snap := st w; chunks := nextId w |} /\
    countdownCleanup w' = countdownCleanup w /\ intervals w' = intervals w /\
    dirty w' = false.
Proof. destruct w. eexists. split; [reflexivity|]. cbn. auto. Qed.

Lemma render_pass_countdown : hoare countdown_pending render_pass countdown_inv.
Proof.
  intros w [H1 H2 H3 H4]. unfold render_pass. rewrite exec_read.
  destruct (dirty w) eqn:D; cbn [when].
  - rewrite exec_read, exec_bind.
    destruct (render_world w) as (w' & -> & Es & Ev & Ec & Ei & _).
    rewrite exec_read.
    apply (rendered_inv (view w')), run_effects_countdown.
    split; rewrite ?Es, ?Ei, ?Ec, ?Ev; cbn; auto.
  - specialize (H4 eq_refl). change (exec skip w) with w.
    split; auto. intros t Ht. split; eauto.
Qed.

Lemma commit_countdown : hoare countdown_pending commit countdown_inv.
Proof.
  unfold commit.
  apply (hoare_bind _ countdown_inv); [apply render_pass_countdown | auto | intros _].
  intros w Hw. apply render_pass_countdown, inv_pending, Hw.
Qed.

Lemma setCountdown_pending v :
  0 < v -> hoare countdown_inv (setCountdown v) countdown_pending.
Proof.
  intros Hv w [H1 H2 H3]. unfold setCountdown. rewrite exec_setState.
  destruct (countdown (st w) =? v) eqn:E.
  - apply inv_pending. split; auto.
  - destruct w as [[] ]; split; cbn in *; try lia; try discriminate.
    intros t Ht. apply H2, Ht.
Qed.

Lemma startRecording_pending r :
  hoare countdown_inv (startRecording r) countdown_pending.
Proof.
  unfold startRecording.
  apply (hoare_bind _ countdown_pending); [apply setCountdown_pending; lia | auto | intros _].
  apply pending_framed. frame.
Qed.

(** A countdown tick can only come from an armed interval, hence from a
    positive countdown. *)
Lemma countdownTick_pending w t :
  intervals w !! t = Some CountdownTick -> countdown_inv w ->
  countdown_pending (exec (intervalCallback CountdownTick) w).
Proof.
  intros Ht [H1 H2 H3]. destruct (H2 t Ht) as [Hpos _].
  unfold intervalCallback, updateCountdown, setCountdown.
  rewrite exec_read, exec_setState.
  destruct (countdown (st w) =? countdown (st w) - 1) eqn:E; [lia|].
  destruct w as [[] ]; split; cbn in *; try lia; try discriminate.
  intros t' Ht'. apply H2, Ht'.
Qed.

Ltac framed_case Hinv :=
  apply pending_framed; [frame | apply inv_pending, Hinv].

(** Every handler the event loop can run leaves the countdown in a state
    the next render repairs. *)
Lemma handler_pending e w h :
  handler_of e w = Some h -> countdown_inv w -> countdown_pending (exec h w).
Proof.
  intros He Hinv.
  destruct e; unfold handler_of, enabled_if in He.
  - destruct (bool_decide _); [|discriminate]. injection He as <-. framed_case Hinv.
  - destruct (bool_decide _); [|discriminate]. injection He as <-. framed_case Hinv.
  - destruct (bool_decide _); [|discriminate]. injection He as <-. framed_case Hinv.
  - destruct (bool_decide _); [|discriminate]. injection He as <-.
    destruct (recording _); [framed_case Hinv | now apply startRecording_pending].
  - destruct (bool_decide _); [|discriminate]. injection He as <-. framed_case Hinv.
  - destruct (userMediaRequests w !! request); [|discriminate].
    injection He as <-. framed_case Hinv.
  - destruct (userMediaRequests w !! request); [|discriminate].
    injection He as <-. framed_case Hinv.
  - destruct (enumerations w !! request); [|discriminate].
    injection He as <-. framed_case Hinv.
  - destruct (enumerations w !! request); [|discriminate].
    injection He as <-. framed_case Hinv.
  - destruct (bool_decide _); [|discriminate]. injection He as <-. framed_case Hinv.
  - destruct (intervals w !! timer) as [[]|] eqn:Ht; [| |discriminate]; injection He as <-.
    + framed_case Hinv.
    + now apply (countdownTick_pending w timer).
  - destruct (recorders w !! recorder); [|discriminate]. cbn in He.
    destruct (_ || _); [|discriminate]. injection He as <-. framed_case Hinv.
  - destruct (recorders w !! recorder); [|discriminate]. cbn in He.
    destruct (negb _); [|discriminate]. injection He as <-. framed_case Hinv.
  - destruct (contexts w !! context); [|discriminate]. cbn in He.
    destruct (_ && _); [|discriminate]. injection He as <-. framed_case Hinv.
  - destruct (bool_decide _); [|discriminate]. injection He as <-. framed_case Hinv.
Qed.

Lemma dispatch_countdown e w w' :
  dispatch e w = Some w' -> countdown_inv w -> countdown_inv w'.
Proof.
  unfold dispatch. intros Hd Hinv.
  destruct (handler_of e w) as [h|] eqn:He; [|discriminate].
  injection Hd as <-. apply commit_countdown. now apply (handler_pending e).
Qed.

Lemma run_countdown es w w' :
  run es w = Some w' -> countdown_inv w -> countdown_inv w'.
Proof.
  revert w. induction es as [|e es IH]; intros w Hr Hinv; cbn in Hr.
  - now injection Hr as <-.
  - destruct (dispatch e w) as [w1|] eqn:Hd; [|discriminate].
    apply (IH w1 Hr). now apply (dispatch_countdown e w).
Qed.

Lemma mounted_countdown : countdown_inv mounted.
Proof.
  assert (Hi : intervals mounted = ∅) by (vm_compute; reflexivity).
  split.
  - vm_compute. discriminate.
  - intros t. rewrite Hi, lookup_empty. discriminate.
  - vm_compute. reflexivity.
Qed.

(** C9.  In every reachable state the countdown is at least 0, and a
    countdown interval is armed only while the countdown is strictly
    positive: the tick can decrement a positive countdown only, and the
    effect does not re-arm it once the countdown has reached 0. *)
Theorem countdown_never_negative (w : World) :
  reachable w ->
  0 <= countdown (st w) /\
  (forall t, intervals w !! t = Some CountdownTick -> 0 < countdown (st w)).
Proof.
  intros [es Hr].
  destruct (run_countdown es mounted w Hr mounted_countdown) as [H1 H2 _].
  split; [exact H1|]. intros t Ht. exact (proj1 (H2 t Ht)).
Qed.

Lemma countdown_never_negative_witness :
  0 <= countdown (st (world_after countingDown)) /\
  (forall t, intervals (world_after countingDown) !! t = Some CountdownTick ->
             0 < countdown (st (world_after countingDown))).
Proof.
  apply (countdown_never_negative (world_after countingDown)).
  exists countingDown. vm_compute. reflexivity.
Defined.

Example countingDown_state :
  countdown (st (world_after countingDown)) = 2 /\
  intervals (world_after countingDown) !! 19%nat = Some CountdownTick.
Proof. split; vm_compute; reflexivity. Qed.

(** ** Between turns the closures hold the current state *)

#[global] Instance keeps_preorder {A} (f : World -> A) : PreOrder (keeps f).
Proof. split; unfold keeps; [intros w; reflexivity | intros w1 w2 w3; congruence]. Qed.

#[global] Instance turn_frame_preorder : PreOrder turn_frame.
Proof.
  split.
  - intros w. split; auto.
  - intros w1 w2 w3 [V1 C1] [V2 C2]. split; [congruence|].
    intros D. destruct (C2 D) as [E2 D2]. destruct (C1 D2) as [E1 D1].
    split; congruence.
Qed.

#[global] Instance same_deps_preorder : PreOrder same_deps.
Proof.
  split.
  - intros s. split; reflexivity.
  - intros s1 s2 s3 [] []. split; congruence.
Qed.

#[global] Instance effect_frame_preorder : PreOrder effect_frame.
Proof.
  split.
  - intros w. split; reflexivity.
  - intros w1 w2 w3 [D1 T1] [D2 T2]. split; [|etransitivity; eassumption].
    destruct D1, D2. split; congruence.
Qed.

Lemma effect_frame_update (w w' : World) :
  same_deps (st w') (st w) -> view w' = view w ->
  (dirty w' = false -> st w' = st w /\ dirty w = false) -> effect_frame w w'.
Proof. intros D V C. split; [exact D | split; assumption]. Qed.

(** Leaves of [effect_frame] proofs. *)
Ltac effect_leaf :=
  intros [[] ? ? ? ? ? ? ? ? ? ? ? ? ? ? ? ? ? ? ? ?];
  apply effect_frame_update; cbn; [split; reflexivity | reflexivity | ];
  first [ intros; discriminate | auto ].

Ltac effect_frame_step :=
  lazymatch goal with
  | |- respects ?R (_ ≫= _) => apply (respects_bind R); [|intros]
  | |- respects ?R (when _ _) => apply (respects_when R)
  | |- respects ?R skip => apply (respects_skip R)
  | |- respects ?R (read _) => apply (respects_read R)
  | |- respects ?R (mret _) => apply (respects_ret R)
  | |- respects ?R (setState _ _) => apply (respects_setState R); effect_leaf
  | |- respects ?R (modify _) => apply (respects_modify R); effect_leaf
  | |- respects _ (match ?x with _ => _ end) => destruct x
  | |- respects _ ?h => let f := head_of h in progress unfold f
  end.

Lemma run_effects_frame old r : respects effect_frame (run_effects old r).
Proof. unfold run_effects. cbv zeta. repeat effect_frame_step. Qed.

Lemma handler_turn e w h : handler_of e w = Some h -> turn_frame w (exec h w).
Proof.
  intros He.
  assert (H : respects turn_frame h -> turn_frame w (exec h w)) by auto.
  apply H. clear H.
  destruct e; unfold handler_of, enabled_if in He.
  - destruct (bool_decide _); [|discriminate]. injection He as <-. frame.
  - destruct (bool_decide _); [|discriminate]. injection He as <-. frame.
  - destruct (bool_decide _); [|discriminate]. injection He as <-. frame.
  - destruct (bool_decide _); [|discriminate]. injection He as <-.
    destruct (recording _); frame.
  - destruct (bool_decide _); [|discriminate]. injection He as <-. frame.
  - destruct (userMediaRequests w !! request); [|discriminate].
    injection He as <-. frame.
  - destruct (userMediaRequests w !! request); [|discriminate].
    injection He as <-. frame.
  - destruct (enumerations w !! request); [|discriminate].
    injection He as <-. frame.
  - destruct (enumerations w !! request); [|discriminate].
    injection He as <-. frame.
  - destruct (bool_decide _); [|discriminate]. injection He as <-. frame.
  - destruct (intervals w !! timer) as [[]|]; [| |discriminate]; injection He as <-; frame.
  - destruct (recorders w !! recorder); [|discriminate]. cbn in He.
    destruct (_ || _); [|discriminate]. injection He as <-. frame.
  - destruct (recorders w !! recorder); [|discriminate]. cbn in He.
    destruct (negb _); [|discriminate]. injection He as <-. frame.
  - destruct (contexts w !! context); [|discriminate]. cbn in He.
    destruct (_ && _); [|discriminate]. injection He as <-. frame.
  - destruct (bool_decide _); [|discriminate]. injection He as <-. frame.
Qed.

Lemma run_effects_same_deps old r w :
  same_deps old (snap r) -> exec (run_effects old r) w = w.
Proof.
  intros [E1 E2 E3 E4 E5]. unfold run_effects. cbv zeta.
  rewrite E1, E2, E3, E4, E5, Z.eqb_refl, !String.eqb_refl.
  rewrite !bool_decide_eq_true_2 by reflexivity.
  reflexivity.
Qed.

Lemma render_quiescent w :
  exists w', render w = (Normal tt, w') /\ quiescent w' /\ st w' = st w.
Proof. destruct w. eexists. split; [reflexivity|]. split; [split|]; reflexivity. Qed.

Lemma first_pass_settling w :
  (dirty w = false -> snap (view w) = st w) -> settling (exec render_pass w).
Proof.
  intros Hw. unfold render_pass. rewrite exec_read.
  destruct (dirty w) eqn:D; cbn [when].
  - rewrite exec_read, exec_bind.
    destruct (render_quiescent w) as (w' & -> & [Hc Hv] & Hs).
    rewrite exec_read.
    destruct (run_effects_frame (snap (view w)) (view w') w') as [Hd [Tv Tc]].
    split.
    + rewrite Tv, Hv. destruct Hd; split; congruence.
    + intros D'. destruct (Tc D') as [E _]. now rewrite Tv, Hv, E.
  - change (exec skip w) with w. specialize (Hw eq_refl). split; [rewrite Hw|]; auto.
    reflexivity.
Qed.

Lemma second_pass_quiescent w : settling w -> quiescent (exec render_pass w).
Proof.
  intros [Hd Hc]. unfold render_pass. rewrite exec_read.
  destruct (dirty w) eqn:D; cbn [when].
  - rewrite exec_read, exec_bind.
    destruct (render_quiescent w) as (w' & -> & Hq & Hs).
    rewrite exec_read, run_effects_same_deps; [exact Hq|].
    destruct Hq as [_ Hv]. rewrite Hv, Hs. exact Hd.
  - change (exec skip w) with w. split; auto.
Qed.

(** *** Handlers that cannot throw *)

Lemma completes_ret {A} (x : A) : completes (mret x).
Proof. intros w. now exists x. Qed.

Lemma completes_read {A} (f : World -> A) : completes (read f).
Proof. intros w. now exists (f w). Qed.

Lemma completes_modify f : completes (modify f).
Proof. intros w. now exists tt. Qed.

Lemma completes_bind {A B} (m : Handler A) (k : A -> Handler B) :
  completes m -> (forall x, completes (k x)) -> completes (m ≫= k).
Proof.
  intros Hm Hk w. unfold mbind, Handler_bind.
  destruct (Hm w) as [x Hx]. destruct (m w) as [[x'|e] w']; cbn in Hx; [|discriminate].
  apply Hk.
Qed.

Lemma completes_when b (h : Handler unit) : completes h -> completes (when b h).
Proof. intros Hh. destruct b; [exact Hh | apply completes_ret]. Qed.

Lemma exec_completes {A B} (m : Handler A) (k : A -> Handler B) w :
  completes m -> exists x, exec (m ≫= k) w = exec (k x) (exec m w).
Proof.
  intros Hm. rewrite exec_bind. unfold exec.
  destruct (Hm w) as [x Hx]. destruct (m w) as [[x'|e] w']; cbn in Hx; [|discriminate].
  now exists x'.
Qed.

Ltac completes_step :=
  lazymatch goal with
  | |- completes (_ ≫= _) => apply completes_bind; [|intros]
  | |- completes (when _ _) => apply completes_when
  | |- completes skip => apply completes_ret
  | |- completes (read _) => apply completes_read
  | |- completes (mret _) => apply completes_ret
  | |- completes (setState _ _) => apply completes_modify
  | |- completes (modify _) => apply completes_modify
  | |- completes (match ?x with _ => _ end) => destruct x
  | |- completes ?h => let f := head_of h in progress unfold f
  end.

Ltac completes := repeat completes_step.

Lemma render_pass_completes : completes render_pass.
Proof. unfold render_pass, run_effects. cbv zeta. completes. Qed.

(** [commit] leaves nothing pending. *)
Lemma commit_clean w :
  (dirty w = false -> snap (view w) = st w) -> quiescent (exec commit w).
Proof.
  intros Hw. unfold commit.
  destruct (exec_completes render_pass (fun _ => render_pass) w render_pass_completes)
    as [[] ->].
  apply second_pass_quiescent, first_pass_settling, Hw.
Qed.

Lemma dispatch_quiescent e w w' :
  dispatch e w = Some w' -> quiescent w -> quiescent w'.
Proof.
  unfold dispatch. intros Hd [Hc Hv].
  destruct (handler_of e w) as [h|] eqn:He; [|discriminate].
  injection Hd as <-. apply commit_clean.
  destruct (handler_turn e w h He) as [Tv Tc].
  intros D. destruct (Tc D) as [E _]. now rewrite Tv, E.
Qed.

Lemma mounted_quiescent : quiescent mounted.
Proof. split; vm_compute; reflexivity. Qed.

(** Every reachable world is quiescent: user-interface handlers read the
    current state. *)
Lemma reachable_quiescent w : reachable w -> quiescent w.
Proof.
  intros [es Hr]. revert Hr. generalize mounted_quiescent. generalize mounted.
  induction es as [|e es IH]; intros w0 H0 Hr; cbn in Hr.
  - now injection Hr as <-.
  - destruct (dispatch e w0) as [w1|] eqn:Hd; [|discriminate].
    apply (IH w1); [now apply (dispatch_quiescent e w0) | exact Hr].
Qed.

Lemma commit_quiescent w : quiescent w -> exec commit w = w.
Proof.
  intros [Hc Hv]. unfold commit, render_pass.
  rewrite exec_bind. unfold mbind, Handler_bind, read. cbn. rewrite Hc. cbn.
  unfold exec. cbn. rewrite Hc. reflexivity.
Qed.

(** ** Releasing the capture session *)

Lemma stopTracks_idemp m : stopTracks (stopTracks m) = stopTracks m.
Proof.
  destruct m as [v a t]. unfold stopTracks; cbn. f_equal.
  rewrite <- list_fmap_compose. reflexivity.
Qed.

Lemma closeContext_idemp c : closeContext (closeContext c) = closeContext c.
Proof. reflexivity. Qed.

Lemma stopTracks_releases m : holdsDevice (stopTracks m) = false.
Proof.
  unfold holdsDevice. apply bool_decide_eq_false_2. cbn.
  intros H. apply list_elem_of_fmap in H as (x & Hx & _). discriminate Hx.
Qed.

Lemma alter_idemp {A} (f : A -> A) (k : nat) (m : gmap nat A) :
  (forall x, f (f x) = f x) -> alter f k (alter f k m) = alter f k m.
Proof.
  intros Hf. apply map_eq. intros i.
  destruct (decide (k = i)) as [->|Hne].
  - rewrite !lookup_alter_eq. destruct (m !! i); cbn; [|reflexivity]. now rewrite Hf.
  - now rewrite !lookup_alter_ne.
Qed.

Lemma denyMediaPermissions_completes r : completes (denyMediaPermissions r).
Proof. completes. Qed.

(** Calling [denyMediaPermissions] again, from the same closure or from any
    later one that sees no stream, changes nothing. *)
Lemma denyMediaPermissions_twice r r' w :
  mediaStream (snap r') = mediaStream (snap r) \/ mediaStream (snap r') = None ->
  exec (denyMediaPermissions r') (exec (denyMediaPermissions r) w) =
  exec (denyMediaPermissions r) w.
Proof.
  intros Hr.
  destruct w as [[ms vd ad rt vol sv sa rec vs sub rv cd] d v mrr acr anr src cc vc n
                 strs recs arrs ctxs tos itv reqs ens urls con frs].
  destruct r as [[rms ? ? ? ? ? ? ? ? ? ? ?] ?], r' as [[rms' ? ? ? ? ? ? ? ? ? ? ?] ?].
  cbn in Hr.
  unfold exec, denyMediaPermissions, stream_stopTracks, recorder_stop, context_close,
    setRecording, setRecordingTime, setMediaStream, setState, modify, read, skip,
    mbind, mret, Handler_bind, Handler_ret.
  cbn [snap mediaStream].
  destruct (Bool.eqb rec false) eqn:E1; [apply Bool.eqb_prop in E1; subst rec|];
  (destruct (rt =? 0) eqn:E2; [apply Z.eqb_eq in E2; subst rt|]);
  (destruct ms as [m|]);
  (destruct rms as [s|]; destruct Hr as [-> | ->]);
  (destruct mrr as [k|]; [destruct (recs !! k) as [[? [] ? ?]|] eqn:Ek|]);
  destruct acr as [c|];
  repeat first
    [ progress cbn
    | rewrite Ek | rewrite E1 | rewrite E2
    | rewrite (bool_decide_eq_true_2 (@None nat = None)) by reflexivity
    | rewrite bool_decide_eq_false_2 by discriminate
    | rewrite (alter_idemp stopTracks) by apply stopTracks_idemp
    | rewrite (alter_idemp closeContext) by apply closeContext_idemp ];
  reflexivity.
Qed.

(** What one call does. *)
Lemma denyMediaPermissions_effect r w :
  let w' := exec (denyMediaPermissions r) w in
  (forall s, mediaStream (snap r) = Some s ->
             streams w' !! s = stopTracks <$> streams w !! s) /\
  mediaRecorderRef w' = None /\
  (forall k, mediaRecorderRef w = Some k ->
             recState <$> recorders w' !! k = (fun _ => RSinactive) <$> recorders w !! k) /\
  recording (st w') = false /\
  recordingTime (st w') = 0 /\
  (forall c, audioContextRef w = Some c ->
             contexts w' !! c = closeContext <$> contexts w !! c) /\
  mediaStream (st w') = None.
Proof.
  destruct w as [[ms vd ad rt vol sv sa rec vs sub rv cd] d v mrr acr anr src cc vc n
                 strs recs arrs ctxs tos itv reqs ens urls con frs].
  destruct r as [[rms ? ? ? ? ? ? ? ? ? ? ?] ?].
  unfold exec, denyMediaPermissions, stream_stopTracks, recorder_stop, context_close,
    setRecording, setRecordingTime, setMediaStream, setState, modify, read, skip,
    mbind, mret, Handler_bind, Handler_ret.
  cbn [snap mediaStream].
  destruct (Bool.eqb rec false) eqn:E1; [apply Bool.eqb_prop in E1; subst rec|];
  (destruct (rt =? 0) eqn:E2; [apply Z.eqb_eq in E2; subst rt|]);
  (destruct ms as [m|]);
  (destruct rms as [s|]);
  (destruct mrr as [k|]; [destruct (recs !! k) as [[? [] ? ?]|] eqn:Ek|]);
  destruct acr as [c|];
  repeat first
    [ progress cbn
    | rewrite Ek | rewrite E1 | rewrite E2
    | rewrite (bool_decide_eq_true_2 (@None nat = None)) by reflexivity
    | rewrite bool_decide_eq_false_2 by discriminate ];
  repeat apply conj; try reflexivity; try (intros ? [= <-]); try discriminate;
  rewrite ?lookup_alter_eq, ?lookup_insert_eq, ?Ek; reflexivity.
Qed.

(** Stopped tracks: as many as before, all ended. *)
Lemma stopTracks_ended m :
  streamVideoId (stopTracks m) = streamVideoId m /\
  streamAudioId (stopTracks m) = streamAudioId m /\
  length (tracks (stopTracks m)) = length (tracks m) /\
  Forall (fun t => t = ended) (tracks (stopTracks m)).
Proof.
  unfold stopTracks. cbn. repeat split.
  - apply length_fmap.
  - induction (tracks m) as [|t ts IH]; cbn; constructor; auto.
Qed.

(** C2.  Releasing is idempotent and safe: [denyMediaPermissions] never
    throws; every track of the stream its closure sees is ended afterwards
    (the stream keeps its tracks and its devices' ids), the recorder in the
    ref is inactive and the ref is cleared, [recording] is false and the
    elapsed time 0, the audio context in the ref is closed and
    [mediaStream] is cleared; and a second call, from the same closure or
    from one that sees no stream, leaves the world exactly as the first call
    left it. *)
Theorem release_idempotent (r r' : Render) (w : World) :
  mediaStream (snap r') = mediaStream (snap r) \/ mediaStream (snap r') = None ->
  let w' := exec (denyMediaPermissions r) w in
  exec (denyMediaPermissions r') w' = w' /\
  (exists x, fst (denyMediaPermissions r w) = Normal x) /\
  (exists x, fst (denyMediaPermissions r' w') = Normal x) /\
  (forall s m, mediaStream (snap r) = Some s -> streams w !! s = Some m ->
     exists m', streams w' !! s = Some m' /\
       streamVideoId m' = streamVideoId m /\ streamAudioId m' = streamAudioId m /\
       length (tracks m') = length (tracks m) /\
       Forall (fun t => t = ended) (tracks m')) /\
  mediaRecorderRef w' = None /\
  (forall k, mediaRecorderRef w = Some k ->
             recState <$> recorders w' !! k = (fun _ => RSinactive) <$> recorders w !! k) /\
  recording (st w') = false /\
  recordingTime (st w') = 0 /\
  (forall c ctx, audioContextRef w = Some c -> contexts w !! c = Some ctx ->
     exists ctx', contexts w' !! c = Some ctx' /\ ctxClosed ctx' = true /\
       ctxStream ctx' = ctxStream ctx /\
       ctxFrequencyData ctx' = ctxFrequencyData ctx) /\
  mediaStream (st w') = None.
Proof.
  intros Hr w'. split; [now apply denyMediaPermissions_twice|].
  split; [apply denyMediaPermissions_completes|].
  split; [apply denyMediaPermissions_completes|].
  destruct (denyMediaPermissions_effect r w) as (H1 & H2 & H3 & H4 & H5 & H6 & H7).
  fold w' in H1, H2, H3, H4, H5, H6, H7.
  repeat apply conj; try assumption.
  - intros s m Hs Hm. rewrite (H1 s Hs), Hm. cbn.
    eexists. split; [reflexivity|]. apply stopTracks_ended.
  - intros c ctx Hc Hctx. rewrite (H6 c Hc), Hctx. cbn.
    eexists. split; [reflexivity|]. repeat split.
Qed.

Lemma release_idempotent_witness :
  let w := world_after acquire in
  let w' := exec (denyMediaPermissions (view w)) w in
  exec (denyMediaPermissions (view w)) w' = w' /\
  tracks <$> streams w !! 9%nat = Some [live; live] /\
  (exists m', streams w' !! 9%nat = Some m' /\ Forall (fun t => t = ended) (tracks m')) /\
  (exists ctx', contexts w' !! 12%nat = Some ctx' /\ ctxClosed ctx' = true) /\
  mediaStream (st w') = None.
Proof.
  intros w w'.
  pose proof (release_idempotent (view w) (view w) w (or_introl eq_refl)) as H.
  destruct H as (H1 & _ & _ & H4 & _ & _ & _ & _ & H9 & H10).
  split; [exact H1|]. split; [vm_compute; reflexivity|]. split; [|split; [|exact H10]].
  - destruct (H4 9%nat {| streamVideoId := "cam1"; streamAudioId := "mic1";
                          tracks := [live; live] |})
      as (m' & Hm' & _ & _ & _ & He); [vm_compute; reflexivity..|].
    exists m'. split; assumption.
  - destruct (H9 12%nat {| ctxStream := 9; ctxClosed := false;
                           ctxFrequencyData := repeat Byte.x00 bufferLength |})
      as (ctx' & Hc' & Hcl & _); [vm_compute; reflexivity..|].
    exists ctx'. split; assumption.
Defined.

(** With no session, no recorder and no audio context, releasing does
    nothing at all. *)
Lemma release_without_session :
  exec (denyMediaPermissions (view mounted)) mounted = mounted.
Proof. vm_compute. reflexivity. Qed.

(** ** What rendering leaves alone *)

Lemma commit_keeps_recordingTime : respects (keeps (fun w => recordingTime (st w))) commit.
Proof. frame. Qed.


Lemma commit_keeps_recording : respects (keeps (fun w => recording (st w))) commit.
Proof. frame. Qed.


Lemma commit_keeps_streams : respects (keeps streams) commit.
Proof. frame. Qed.

Lemma commit_keeps_console : respects (keeps console) commit.
Proof. frame. Qed.

(** ** Elapsed time *)

Lemma beginRecording_resets w :
  recordingTime (st (exec beginRecording w)) = 0 /\
  intervals (exec beginRecording w) !! nextId w = Some ElapsedTick /\
  (forall k rec, mediaRecorderRef w = Some k -> recorders w !! k = Some rec ->
     recState rec = RSinactive ->
     recState <$> recorders (exec beginRecording w) !! k = Some RSrecording /\
     recording (st (exec beginRecording w)) = true).
Proof.
  destruct w as [[ms vd ad rt vol sv sa rec vs sub rv cd] d v mrr acr anr src cc vc n
                 strs recs arrs ctxs tos itv reqs ens urls con frs].
  unfold exec, beginRecording, setInterval, fresh, recorder_start, throw,
    setRecording, setRecordingTime, setState, modify, read, skip,
    mbind, mret, Handler_bind, Handler_ret.
  destruct (rt =? 0) eqn:E2; [apply Z.eqb_eq in E2; subst rt|];
  (destruct mrr as [k|]; [destruct (recs !! k) as [[? [] ? ?]|] eqn:Ek|]);
  destruct rec;
  repeat first [ progress cbn | rewrite Ek | rewrite E2 ];
  (split; [reflexivity|]); (split; [apply lookup_insert_eq|]);
  intros k' rec' [= <-] Hk' Hs; try discriminate;
  rewrite ?Ek in Hk'; try discriminate; injection Hk' as <-; try discriminate Hs;
  cbn; rewrite lookup_insert_eq; split; reflexivity.
Qed.




Example elapsed_time_was_running :
  recordingTime (st (world_after (timeoutDue ++ [TimeoutFired 15; IntervalFired 23]))) = 1.
Proof. vm_compute. reflexivity. Qed.

(** ** A denied request *)

(** C7.  When the platform denies (or fails) a pending [getUserMedia]
    request, the turn changes two things only: the request is no longer
    pending and the console holds one more error, "Permission denied".  The
    React state, the refs, the streams, the recorders and the timers are as
    before, and no new request has been issued. *)
Theorem denied_request_changes_nothing (w : World) (k : nat) (ids : string * string) :
  reachable w ->
  userMediaRequests w !! k = Some ids ->
  dispatch (UserMediaDenied k) w =
    Some (on_console (fun l => l ++ [(ErrorLevel, "Permission denied")])
            (on_userMediaRequests (delete k) w)).
Proof.
  intros Hr Hk. apply reachable_quiescent in Hr.
  unfold dispatch, handler_of. rewrite Hk. cbn [fmap option_fmap option_map].
  f_equal.
  change (exec (userMediaDenied k) w)
    with (on_console (fun l => l ++ [(ErrorLevel, "Permission denied")])
            (on_userMediaRequests (delete k) w)).
  apply commit_quiescent. destruct Hr as [Hc Hv]. destruct w; split; assumption.
Qed.

Lemma denied_request_changes_nothing_witness :
  let w := world_after [ClickAskPermission] in
  dispatch (UserMediaDenied 2) w =
    Some (on_console (fun l => l ++ [(ErrorLevel, "Permission denied")])
            (on_userMediaRequests (delete 2%nat) w)).
Proof.
  apply (denied_request_changes_nothing (world_after [ClickAskPermission]) 2%nat ("", "")).
  - exists [ClickAskPermission]. vm_compute. reflexivity.
  - vm_compute. reflexivity.
Defined.

Example denied_request_example :
  let w' := world_after [ClickAskPermission; UserMediaDenied 2] in
  st w' = initialState /\ srcObject w' = None /\ streams w' = ∅ /\
  userMediaRequests w' = ∅ /\ console w' = [(ErrorLevel, "Permission denied")].
Proof. repeat split; vm_compute; reflexivity. Qed.

(** ** Default selection after enumeration *)

Lemma filter_first_of_kind (k : MediaDeviceKind) before first after :
  Forall (fun device => kind device <> k) before -> kind first = k ->
  head (filter (fun device => kind device = k) (before ++ first :: after)) = Some first.
Proof.
  intros Hb Hk. induction Hb as [|d before Hd Hb IH]; cbn [app].
  - rewrite filter_cons. destruct (decide (kind first = k)); [reflexivity | contradiction].
  - rewrite filter_cons. destruct (decide (kind d = k)); [contradiction | exact IH].
Qed.

Lemma filter_none_of_kind (k : MediaDeviceKind) (devices : list MediaDeviceInfo) :
  Forall (fun device => kind device <> k) devices ->
  filter (fun device => kind device = k) devices = [].
Proof.
  intros Hf. induction Hf as [|d devices Hd Hf IH]; [reflexivity|].
  rewrite filter_cons. destruct (decide (kind d = k)); [contradiction | exact IH].
Qed.

Lemma st_setState same upd w :
  (forall s, same s = true -> upd s = s) ->
  st (exec (setState same upd) w) = upd (st w).
Proof.
  intros Hsame. rewrite exec_setState.
  destruct (same (st w)) eqn:E; [symmetry; auto | destruct w; reflexivity].
Qed.

Lemma devicesEnumerated_state
    (w : World) (closed : string * string) (devices : list MediaDeviceInfo) :
  closed = (selectedVideoDevice (st w), selectedAudioDevice (st w)) ->
  let w' := exec (devicesEnumerated closed devices) w in
  let videos := filter (fun device => kind device = videoinput) devices in
  let audios := filter (fun device => kind device = audioinput) devices in
  videoDevices (st w') = videos /\
  audioDevices (st w') = audios /\
  (forall first, head videos = Some first -> selectedVideoDevice (st w) = "" ->
                 selectedVideoDevice (st w') = deviceId first) /\
  (forall first, head audios = Some first -> selectedAudioDevice (st w) = "" ->
                 selectedAudioDevice (st w') = deviceId first) /\
  (selectedVideoDevice (st w) <> "" ->
   selectedVideoDevice (st w') = selectedVideoDevice (st w)) /\
  (selectedAudioDevice (st w) <> "" ->
   selectedAudioDevice (st w') = selectedAudioDevice (st w)) /\
  (videos = [] -> selectedVideoDevice (st w') = selectedVideoDevice (st w)) /\
  (audios = [] -> selectedAudioDevice (st w') = selectedAudioDevice (st w)).
Proof.
  intros -> w' videos audios. subst w'.
  unfold devicesEnumerated, setVideoDevices, setAudioDevices,
    setSelectedVideoDevice, setSelectedAudioDevice.
  fold videos audios. cbn [fst snd].
  destruct videos as [|v0 videos'], audios as [|a0 audios'];
    repeat first
      [ rewrite exec_setState_bind; cbv beta
      | progress change (exec (skip ≫= ?k) ?w0) with (exec (k tt) w0); cbv beta
      | progress change (exec skip ?w0) with w0 ];
    rewrite !st_setState
      by (intros [] E; first [discriminate E | apply String.eqb_eq in E; cbn in E; now subst]);
    destruct (st w) as [ms vd ad rt vol sv sa rec vs sub rv cd]; cbn;
    destruct sv as [|c1 s1], sa as [|c2 s2]; cbn;
    repeat apply conj; intros; simplify_eq; try reflexivity; try congruence.
Qed.

(** When the enumeration arrives and the selection has not changed since
    the effect asked for it, the callback stores the video inputs and the
    audio inputs, in enumeration order, as the two device lists; for each
    kind with an empty selection, the selection becomes the first device of
    that kind in the enumeration; a selection that was already made stays;
    and with no device of a kind the selection of that kind stays as it
    was. *)
Lemma default_selection_when_current
    (w : World) (closed : string * string) (devices : list MediaDeviceInfo) :
  closed = (selectedVideoDevice (st w), selectedAudioDevice (st w)) ->
  let w' := exec (devicesEnumerated closed devices) w in
  videoDevices (st w') = filter (fun device => kind device = videoinput) devices /\
  audioDevices (st w') = filter (fun device => kind device = audioinput) devices /\
  (forall before first after,
     devices = before ++ first :: after -> kind first = videoinput ->
     Forall (fun device => kind device <> videoinput) before ->
     selectedVideoDevice (st w) = "" ->
     selectedVideoDevice (st w') = deviceId first) /\
  (forall before first after,
     devices = before ++ first :: after -> kind first = audioinput ->
     Forall (fun device => kind device <> audioinput) before ->
     selectedAudioDevice (st w) = "" ->
     selectedAudioDevice (st w') = deviceId first) /\
  (selectedVideoDevice (st w) <> "" ->
   selectedVideoDevice (st w') = selectedVideoDevice (st w)) /\
  (selectedAudioDevice (st w) <> "" ->
   selectedAudioDevice (st w') = selectedAudioDevice (st w)) /\
  (Forall (fun device => kind device <> videoinput) devices ->
   selectedVideoDevice (st w') = selectedVideoDevice (st w)) /\
  (Forall (fun device => kind device <> audioinput) devices ->
   selectedAudioDevice (st w') = selectedAudioDevice (st w)).
Proof.
  intros Hc w'.
  destruct (devicesEnumerated_state w closed devices Hc)
    as (Hv & Ha & Hsv & Hsa & Hkv & Hka & Hnv & Hna).
  repeat apply conj; try assumption.
  - intros before first after -> Hk Hb. apply Hsv. now apply filter_first_of_kind.
  - intros before first after -> Hk Hb. apply Hsa. now apply filter_first_of_kind.
  - intros Hf. apply Hnv. now apply filter_none_of_kind.
  - intros Hf. apply Hna. now apply filter_none_of_kind.
Qed.

Example default_selection_when_current_example :
  let w := world_after [ClickAskPermission; UserMediaGranted 2] in
  let w' := exec (devicesEnumerated ("", "") [cam1; mic1; cam2]) w in
  videoDevices (st w') = [cam1; cam2] /\ audioDevices (st w') = [mic1] /\
  selectedVideoDevice (st w') = "cam1" /\ selectedAudioDevice (st w') = "mic1".
Proof.
  intros w w'.
  pose proof (default_selection_when_current w ("", "") [cam1; mic1; cam2] eq_refl)
    as (Hv & Ha & Hsv & Hsa & _).
  refine (conj Hv (conj Ha (conj (Hsv [] cam1 [mic1; cam2] eq_refl eq_refl _ eq_refl)
                                 (Hsa [cam1] mic1 [cam2] eq_refl eq_refl _ eq_refl)))).
  - constructor.
  - constructor; [discriminate | constructor].
Defined.

(** On acquisition the closure of the pending enumeration holds the current
    selection, and the turn in which the enumeration arrives selects the
    first camera and the first microphone. *)
Example selection_after_acquisition :
  let w := world_after [ClickAskPermission; UserMediaGranted 2] in
  enumerations w !! 5%nat = Some (selectedVideoDevice (st w), selectedAudioDevice (st w)) /\
  exists w', dispatch (DevicesEnumerated 5 [cam1; mic1; cam2]) w = Some w' /\
    videoDevices (st w') = [cam1; cam2] /\ audioDevices (st w') = [mic1] /\
    selectedVideoDevice (st w') = "cam1" /\ selectedAudioDevice (st w') = "mic1".
Proof.
  split; [vm_compute; reflexivity|].
  eexists. split; [vm_compute; reflexivity|].
  repeat split; vm_compute; reflexivity.
Qed.

Example selection_is_kept :
  let w := world_after acquire in
  selectedVideoDevice (st w) = "cam1" /\
  selectedVideoDevice (st (exec (devicesEnumerated ("cam1", "mic1") [cam2; mic1; cam1]) w))
    = "cam1".
Proof. split; vm_compute; reflexivity. Qed.

(** Whatever the current selection is, the callback writes the selection
    its closure captured when the effect ran, or the first device when that
    was empty. *)
Lemma devicesEnumerated_selection
    (w : World) (closed : string * string) (devices : list MediaDeviceInfo) :
  let w' := exec (devicesEnumerated closed devices) w in
  selectedVideoDevice (st w') =
    match filter (fun device => kind device = videoinput) devices with
    | first :: _ => if truthy (fst closed) then fst closed else deviceId first
    | [] => selectedVideoDevice (st w)
    end /\
  selectedAudioDevice (st w') =
    match filter (fun device => kind device = audioinput) devices with
    | first :: _ => if truthy (snd closed) then snd closed else deviceId first
    | [] => selectedAudioDevice (st w)
    end.
Proof.
  intros w'. subst w'.
  unfold devicesEnumerated, setVideoDevices, setAudioDevices,
    setSelectedVideoDevice, setSelectedAudioDevice.
  destruct (filter (fun device => kind device = videoinput) devices) as [|v0 videos'],
           (filter (fun device => kind device = audioinput) devices) as [|a0 audios'];
    repeat first
      [ rewrite exec_setState_bind; cbv beta
      | progress change (exec (skip ≫= ?k) ?w0) with (exec (k tt) w0); cbv beta
      | progress change (exec skip ?w0) with w0 ];
    rewrite !st_setState
      by (intros [] E; first [discriminate E | apply String.eqb_eq in E; cbn in E; now subst]);
    destruct (st w) as [ms vd ad rt vol sv sa rec vs sub rv cd]; cbn;
    split; reflexivity.
Qed.

(** C8 on the code.  The callback of the enumeration is written to keep a
    selection that was made and to default an empty one
    ([selectedVideoDevice || videoDevices[0].deviceId]), but the selection
    it reads is the one of the render in which the effect ran.  A session
    is re-acquired for cam1 and mic1 and its enumeration is pending; the
    user picks cam2; the enumeration arrives: the callback's closure still
    holds cam1, and the selection the user made is overwritten by it. *)
Theorem stale_enumeration_overwrites_selection :
  let w := world_after staleEnumeration in
  (selectedVideoDevice (st w) = "cam2" /\ selectedAudioDevice (st w) = "mic1" /\
   enumerations w !! 11%nat = Some ("cam1", "mic1")) /\
  exists w',
    dispatch (DevicesEnumerated 11 [cam1; mic1; cam2]) w = Some w' /\
    videoDevices (st w') = [cam1; cam2] /\ audioDevices (st w') = [mic1] /\
    selectedVideoDevice (st w') = "cam1" /\ selectedAudioDevice (st w') = "mic1".
Proof.
  split; [repeat split; vm_compute; reflexivity|].
  eexists. split; [vm_compute; reflexivity|].
  repeat split; vm_compute; reflexivity.
Qed.

(** ** Chunk buffering *)

Lemma ondataavailable_array a data w :
  arrays (exec (ondataavailable a data) w) =
  <[a := default [] (arrays w !! a) ++ [data]]> (arrays w).
Proof. destruct w. reflexivity. Qed.

(** Every fragment is appended, in order, to the array the recorder's
    callbacks closed over; no other array is touched. *)
Lemma ondataavailable_appends a fragments w :
  let w1 := foldl (fun w0 data => exec (ondataavailable a data) w0) w fragments in
  default [] (arrays w1 !! a) = default [] (arrays w !! a) ++ fragments /\
  (forall b, b <> a -> arrays w1 !! b = arrays w !! b) /\
  st w1 = st w /\ nextId w1 = nextId w.
Proof.
  revert w. induction fragments as [|data fragments IH]; intros w; cbn [foldl].
  - rewrite app_nil_r. auto.
  - destruct (IH (exec (ondataavailable a data) w)) as (H1 & H2 & H3 & H4).
    rewrite ondataavailable_array, lookup_insert_eq in H1. cbn in H1.
    rewrite <- app_assoc in H1. split; [exact H1|]. split; [|split].
    + intros b Hb. rewrite (H2 b Hb), ondataavailable_array.
      now apply lookup_insert_ne.
    + rewrite H3. destruct w. reflexivity.
    + rewrite H4. destruct w. reflexivity.
Qed.

Lemma onstop_artifact a w :
  recordedVideo (st (exec (onstop a) w)) =
    Some {| blobId := nextId w; blobType := "video/webm";
            blobData := concat (blobData <$> default [] (arrays w !! a)) |} /\
  arrays (exec (onstop a) w) = <[a := []]> (arrays w).
Proof. destruct w as [[] ]. split; reflexivity. Qed.

(** Let [a] be the chunk array the callbacks of a recorder closed over.
    The two callbacks, run by hand: [ondataavailable] appends its fragments
    to [a] in order; [onstop] then stores one new blob of type video/webm
    whose bytes are the concatenation of the buffered fragments, and leaves
    [a] empty. *)
Lemma callbacks_buffer_and_finalize (w : World) (a : nat) (fragments : list Blob) :
  let buffered := default [] (arrays w !! a) in
  let w1 := foldl (fun w0 data => exec (ondataavailable a data) w0) w fragments in
  let w2 := exec (onstop a) w1 in
  default [] (arrays w1 !! a) = buffered ++ fragments /\
  recordedVideo (st w2) =
    Some {| blobId := nextId w; blobType := "video/webm";
            blobData := concat (blobData <$> (buffered ++ fragments)) |} /\
  arrays w2 !! a = Some [] /\
  (forall b, b <> a -> arrays w2 !! b = arrays w !! b).
Proof.
  intros buffered w1 w2.
  destruct (ondataavailable_appends a fragments w) as (H1 & H2 & H3 & H4).
  fold w1 in H1, H2, H3, H4. fold buffered in H1.
  destruct (onstop_artifact a w1) as [H5 H6]. fold w2 in H5, H6.
  split; [exact H1|]. split; [now rewrite H5, H1, H4|]. split.
  - rewrite H6. apply lookup_insert_eq.
  - intros b Hb. rewrite H6, lookup_insert_ne by congruence. now apply H2.
Qed.

(** The recorder [startRecording] creates closes over the [chunks] array of
    the render whose button was clicked. *)
Lemma startRecording_recorder r s w :
  mediaStream (snap r) = Some s ->
  let w' := exec (startRecording r) w in
  mediaRecorderRef w' = Some (nextId w) /\
  recorders w' !! nextId w =
    Some {| recStream := s; recState := RSinactive; recChunks := chunks r;
            recStopsQueued := 0 |} /\
  S (nextId w) ∈ timeouts w'.
Proof.
  intros Hs. destruct w as [[ms vd ad rt vol sv sa rec vs sub rv cd] d v mrr acr anr src
                 cc vc n strs recs arrs ctxs tos itv reqs ens urls con frs].
  unfold exec, startRecording, setCountdown, setState, new_MediaRecorder,
    setTimeout_beginRecording, fresh, modify, read, skip,
    mbind, mret, Handler_bind, Handler_ret.
  rewrite Hs. cbn. destruct (cd =? 3); cbn;
    (split; [reflexivity|]); (split; [apply lookup_insert_eq | set_solver]).
Qed.

(** A complete cycle through the event loop: the artifact is the three
    fragments in order and the recorder's array is empty again. *)
Example recordingCycle_artifact :
  let w := world_after recordingCycle in
  (blobType <$> recordedVideo (st w)) = Some "video/webm" /\
  (blobData <$> recordedVideo (st w)) = Some [Byte.x01; Byte.x02; Byte.x03; Byte.x04] /\
  (recChunks <$> recorders w !! 14%nat) = Some 13%nat /\
  arrays w !! 13%nat = Some [] /\
  recordingTime (st w) = 0.
Proof. repeat split; vm_compute; reflexivity. Qed.

(** A second cycle replaces the artifact of the first. *)
Example second_cycle_replaces :
  let w := world_after (recordingCycle ++
             [ClickRecordButton; TimeoutFired 35;
              DataAvailable 34 "video/webm" [Byte.x05];
              ClickRecordButton; RecorderStopped 34]) in
  (blobData <$> recordedVideo (st w)) = Some [Byte.x05].
Proof. vm_compute. reflexivity. Qed.

(** ** Changing the device *)

Lemma exec_getUserMedia video audio w :
  userMediaRequests (exec (getUserMedia video audio) w) =
  <[nextId w := (video, audio)]> (userMediaRequests w).
Proof. destruct w. reflexivity. Qed.

Lemma hoare_bind_completes {A B} (P Q1 Q : World -> Prop)
    (m : Handler A) (k : A -> Handler B) :
  completes m -> hoare P m Q1 -> (forall x, hoare Q1 (k x) Q) -> hoare P (m ≫= k) Q.
Proof.
  intros Hc Hm Hk w HP. destruct (exec_completes m k w Hc) as [x ->].
  apply Hk, Hm, HP.
Qed.

Lemma hoare_keeps {A B} (f : World -> A) (x : A) (h : Handler B) :
  respects (keeps f) h -> hoare (fun w => f w = x) h (fun w => f w = x).
Proof. intros Hk w Hw. now rewrite (Hk w). Qed.

(** Whatever option the user picks, the request [handleDeviceChange] issues
    asks for the pair of devices of the render the handler belongs to, the
    selection before the change. *)
Lemma onChangeVideoSource_request r value w :
  userMediaRequests (exec (onChangeVideoSource r value) w) =
  <[nextId w := (selectedVideoDevice (snap r), selectedAudioDevice (snap r))]>
    (userMediaRequests w).
Proof.
  set (f := fun w0 => (userMediaRequests w0, nextId w0)).
  revert w. 
  cut (forall x, hoare (fun w => f w = x) (onChangeVideoSource r value)
         (fun w => userMediaRequests w =
            <[x.2 := (selectedVideoDevice (snap r), selectedAudioDevice (snap r))]> x.1)).
  { intros H w. exact (H (f w) w eq_refl). }
  intros x. unfold onChangeVideoSource, handleDeviceChange.
  apply (hoare_bind_completes _ (fun w => f w = x));
    [completes | apply hoare_keeps; frame | intros _].
  apply (hoare_bind_completes _ (fun w => f w = x));
    [completes | apply hoare_keeps; frame | intros _].
  apply (hoare_bind_completes _ (fun w => f w = x));
    [completes | apply hoare_keeps; frame | intros _].
  intros w <-. unfold handlePermission. apply exec_getUserMedia.
Qed.

(** C1 on the code.  With a live session on cam1 and mic1, the user picks
    cam2.  The handler stops the tracks of the current stream and clears it,
    and then asks for cam1 and mic1 again: the selection shows cam2, the
    pending request and the stream it is granted are for cam1, and nothing
    asks for cam2 afterwards.  The stream of the first acquisition, which
    the selection effect replaced without stopping it, still holds its
    devices. *)
Theorem device_change_requests_previous_pair :
  let w := world_after acquire in
  (mediaStream (st w) = Some 9%nat /\
   selectedVideoDevice (st w) = "cam1" /\ selectedAudioDevice (st w) = "mic1") /\
  exists w1,
    dispatch (ChangeVideoSource "cam2") w = Some w1 /\
    selectedVideoDevice (st w1) = "cam2" /\
    mediaStream (st w1) = None /\
    tracks <$> streams w1 !! 9%nat = Some [ended; ended] /\
    map_to_list (userMediaRequests w1) = [(14%nat, ("cam1", "mic1"))] /\
    exists w2,
      dispatch (UserMediaGranted 14) w1 = Some w2 /\
      mediaStream (st w2) = Some 17%nat /\
      streamVideoId <$> streams w2 !! 17%nat = Some "cam1" /\
      selectedVideoDevice (st w2) = "cam2" /\
      userMediaRequests w2 = ∅ /\
      holdsDevice <$> streams w2 !! 3%nat = Some true /\
      holdsDevice <$> streams w2 !! 17%nat = Some true.
Proof.
  split; [repeat split; vm_compute; reflexivity|].
  eexists. split; [vm_compute; reflexivity|].
  do 4 (split; [vm_compute; reflexivity|]).
  eexists. split; [vm_compute; reflexivity|].
  repeat split; vm_compute; reflexivity.
Qed.

(** ** Starting while the countdown runs *)

(** Without a stream [startRecording] still sets the countdown. *)
Lemma startRecording_without_stream r w :
  mediaStream (snap r) = None ->
  exec (startRecording r) w = exec (setCountdown 3) w.
Proof. intros Hs. unfold startRecording. rewrite Hs. reflexivity. Qed.

(** C3 on the code.  [startRecording] has one guard, on the stream, and it
    sets the countdown before that guard.  Called with no session it turns a
    countdown of 0 into 3.  Clicked again while the countdown shows 2 (the
    button still says "Start Recording"), it sets the countdown back to 3,
    replaces the recorder and schedules a second timeout. *)
Theorem start_is_not_a_noop :
  (mediaStream (st mounted) = None /\ countdown (st mounted) = 0 /\
   countdown (st (exec (startRecording (view mounted)) mounted)) = 3) /\
  let w := world_after countingDown in
  (mediaStream (st w) = Some 9%nat /\ recording (st w) = false /\
   countdown (st w) = 2 /\ mediaRecorderRef w = Some 14%nat /\
   size (timeouts w) = 1%nat) /\
  exists w',
    dispatch ClickRecordButton w = Some w' /\
    countdown (st w') = 3 /\ mediaRecorderRef w' = Some 20%nat /\
    size (timeouts w') = 2%nat.
Proof.
  split; [repeat split; vm_compute; reflexivity|].
  split; [repeat split; vm_compute; reflexivity|].
  eexists. split; [vm_compute; reflexivity|].
  repeat split; vm_compute; reflexivity.
Qed.

(** What the second timeout then does: the recorder is already recording,
    [start()] throws, and a second elapsed-time interval keeps running. *)
Example double_start_consequence :
  let w := world_after (countingDown ++
             [ClickRecordButton; TimeoutFired 15; TimeoutFired 21]) in
  (recState <$> recorders w !! 20%nat) = Some RSrecording /\
  size (filter (fun kv => kv.2 = ElapsedTick) (intervals w)) = 2%nat.
Proof. split; vm_compute; reflexivity. Qed.

(** ** The width of the clock *)

Lemma length_append (s t : string) :
  String.length (s +:+ t) = (String.length s + String.length t)%nat.
Proof.
  induction s as [|c s IH]; [reflexivity|].
  change (String c s +:+ t) with (String c (s +:+ t)). cbn [String.length].
  now rewrite IH.
Qed.

(** Below one hundred, a padded field has exactly two characters. *)
Lemma padded_field_width n :
  0 <= n < 100 -> String.length (padStart 2 "0" (toString n)) = 2%nat.
Proof.
  intros Hn.
  assert (H : forallb (fun k => Nat.eqb (String.length (padStart 2 "0" (toString (Z.of_nat k)))) 2)
                (seq 0 100) = true) by (vm_compute; reflexivity).
  rewrite forallb_forall in H.
  specialize (H (Z.to_nat n)). rewrite Z2Nat.id in H by lia.
  apply Nat.eqb_eq, H, in_seq. lia.
Qed.

(** [padStart] never shortens: from one hundred on, the field has as many
    characters as the number has digits, at least three. *)
Lemma padStart_keeps_long target pad s :
  (target <= String.length s)%nat -> padStart target pad s = s.
Proof. intros H. unfold padStart. apply Nat.leb_le in H. now rewrite H. Qed.

(** X1.  For every elapsed time from 0 up to, but not including, one hundred
    hours, [formatTime] returns exactly eight characters: three fields of
    two characters and two colons. *)
Theorem formatTime_width (s : Z) :
  0 <= s < 360000 -> String.length (formatTime s) = 8%nat.
Proof.
  intros Hs. rewrite formatTime_safe by lia.
  pose proof (Z.mod_pos_bound s 3600 ltac:(lia)).
  pose proof (Z.mod_pos_bound s 60 ltac:(lia)).
  rewrite !length_append.
  rewrite !padded_field_width; [reflexivity | | |].
  - lia.
  - split; [apply Z.div_pos; lia | apply Z.div_lt_upper_bound; lia].
  - split; [apply Z.div_pos; lia | apply Z.div_lt_upper_bound; lia].
Qed.

Lemma formatTime_width_witness : String.length (formatTime 359999) = 8%nat.
Proof. apply (formatTime_width 359999). lia. Defined.

(** ** Invariants of the event loop *)

(** The handlers the event loop can run in [w]. *)
Lemma handler_of_cases (w : World) (P : Event -> Handler unit -> Prop) :
  P ClickAskPermission (handlePermission (view w)) ->
  (forall value, P (ChangeVideoSource value) (onChangeVideoSource (view w) value)) ->
  (forall value, P (ChangeAudioSource value) (onChangeAudioSource (view w) value)) ->
  P ClickRecordButton stopRecording ->
  P ClickRecordButton (startRecording (view w)) ->
  P ClickSubmit (handleSubmit (view w)) ->
  (forall k ids, userMediaRequests w !! k = Some ids ->
     P (UserMediaGranted k) (userMediaGranted k ids)) ->
  (forall k, P (UserMediaDenied k) (userMediaDenied k)) ->
  (forall k closed devices, enumerations w !! k = Some closed ->
     P (DevicesEnumerated k devices)
       (modify (on_enumerations (delete k));; devicesEnumerated closed devices)) ->
  (forall k, P (EnumerationFailed k) (modify (on_enumerations (delete k)))) ->
  (forall t, t ∈ timeouts w ->
     P (TimeoutFired t) (modify (on_timeouts (fun ts => ts ∖ {[t]}));; beginRecording)) ->
  (forall t cb, intervals w !! t = Some cb -> P (IntervalFired t) (intervalCallback cb)) ->
  (forall k rec type data, recorders w !! k = Some rec ->
     P (DataAvailable k type data) (dataAvailable rec type data)) ->
  (forall k rec, recorders w !! k = Some rec -> recStopsQueued rec <> 0%nat ->
     P (RecorderStopped k) (recorderStopped k rec)) ->
  (forall c ctx data, contexts w !! c = Some ctx -> ctxClosed ctx = false ->
     length data = bufferLength -> P (AudioProcessed c data) (audioProcessed c ctx data)) ->
  (forall c, c ∈ animationFrames w -> P (AnimationFrame c) (animationFrame c)) ->
  forall e h, handler_of e w = Some h -> P e h.
Proof.
  intros H1 H2 H3 H4 H5 H6 H7 H8 H9 H10 H11 H12 H13 H14 H15 H16 e h He.
  destruct e; unfold handler_of, enabled_if in He.
  - destruct (bool_decide _); [|discriminate]. injection He as <-. apply H1.
  - destruct (bool_decide _); [|discriminate]. injection He as <-. apply H2.
  - destruct (bool_decide _); [|discriminate]. injection He as <-. apply H3.
  - destruct (bool_decide _); [|discriminate]. injection He as <-.
    destruct (recording _); [apply H4 | apply H5].
  - destruct (bool_decide _); [|discriminate]. injection He as <-. apply H6.
  - destruct (userMediaRequests w !! request) eqn:E; [|discriminate].
    injection He as <-. now apply H7.
  - destruct (userMediaRequests w !! request); [|discriminate].
    injection He as <-. apply H8.
  - destruct (enumerations w !! request) eqn:E; [|discriminate].
    injection He as <-. now apply H9.
  - destruct (enumerations w !! request); [|discriminate].
    injection He as <-. apply H10.
  - destruct (bool_decide (timer ∈ timeouts w)) eqn:E; [|discriminate].
    injection He as <-. apply H11. now apply bool_decide_eq_true in E.
  - destruct (intervals w !! timer) eqn:E; [|discriminate]. injection He as <-.
    now apply (H12 timer).
  - destruct (recorders w !! recorder) eqn:E; [|discriminate]. cbn in He.
    destruct (_ || _); [|discriminate]. injection He as <-. now apply (H13 recorder).
  - destruct (recorders w !! recorder) eqn:E; [|discriminate]. cbn in He.
    destruct (recStopsQueued m) eqn:E0; cbn in He; [discriminate|].
    injection He as <-.
    apply (H14 recorder); [assumption|]. now rewrite E0.
  - destruct (contexts w !! context) eqn:E; [|discriminate]. cbn in He.
    destruct (ctxClosed a) eqn:Ec; cbn in He; [discriminate|].
    match type of He with
    | context [Nat.eqb ?a ?b] => destruct (Nat.eqb a b) eqn:El; [|discriminate]
    end.
    injection He as <-. apply (H15 context); [assumption..|]. now apply Nat.eqb_eq in El.
  - destruct (bool_decide (context ∈ animationFrames w)) eqn:E; [|discriminate].
    injection He as <-. apply H16. now apply bool_decide_eq_true in E.
Qed.

Lemma run_snoc es e w :
  run (es ++ [e]) w = run es w ≫= dispatch e.
Proof.
  revert w. induction es as [|e0 es IH]; intros w; cbn.
  - destruct (dispatch e w); reflexivity.
  - destruct (dispatch e0 w) as [w1|]; cbn; [apply IH | reflexivity].
Qed.

Lemma reachable_step e w w' : reachable w -> dispatch e w = Some w' -> reachable w'.
Proof.
  intros [es Hes] Hd. exists (es ++ [e]). rewrite run_snoc, Hes. exact Hd.
Qed.

Lemma reachable_run es w w' : reachable w -> run es w = Some w' -> reachable w'.
Proof.
  revert w. induction es as [|e es IH]; intros w Hr Hrun; cbn in Hrun.
  - now injection Hrun as <-.
  - destruct (dispatch e w) as [w1|] eqn:Hd; [|discriminate]. cbn in Hrun.
    apply (IH w1); [now apply (reachable_step e w) | exact Hrun].
Qed.

(** An invariant that holds when the component has mounted and that every
    turn from a reachable world keeps holds in every reachable world. *)
Lemma reachable_invariant (I : World -> Prop) :
  I mounted ->
  (forall e w h, reachable w -> handler_of e w = Some h -> I w ->
                 I (exec commit (exec h w))) ->
  forall w, reachable w -> I w.
Proof.
  intros H0 Hstep w [es Hes]. revert w Hes.
  induction es as [|e es IH] using rev_ind; intros w Hes.
  - cbn in Hes. now injection Hes as <-.
  - rewrite run_snoc in Hes. destruct (run es mounted) as [w1|] eqn:E1; [|discriminate].
    cbn in Hes. unfold dispatch in Hes.
    destruct (handler_of e w1) as [h|] eqn:He; [|discriminate]. injection Hes as <-.
    apply (Hstep e w1 h); [now exists es | assumption | now apply IH].
Qed.

Lemma hoare_keeps_pred {A B} (f : World -> A) (G : A -> Prop) (h : Handler B) :
  respects (keeps f) h -> hoare (fun w => G (f w)) h (fun w => G (f w)).
Proof. intros Hk w Hw. now rewrite (Hk w). Qed.

Lemma hoare_modify (P Q : World -> Prop) f :
  (forall w, P w -> Q (f w)) -> hoare P (modify f) Q.
Proof. intros H w Hw. apply H, Hw. Qed.

Lemma hoare_setState (P : World -> Prop) same upd :
  (forall w, P w -> P (on_dirty (fun _ => true) (on_st upd w))) ->
  hoare P (setState same upd) P.
Proof.
  intros H w Hw. rewrite exec_setState. destruct (same (st w)); [exact Hw | apply H, Hw].
Qed.

Lemma hoare_skip (P : World -> Prop) : hoare P skip P.
Proof. intros w Hw. exact Hw. Qed.

Lemma hoare_read {A} (P : World -> Prop) (f : World -> A) : hoare P (read f) P.
Proof. intros w Hw. exact Hw. Qed.

Lemma hoare_throw {A} (P : World -> Prop) e : hoare P (@throw A e) P.
Proof. intros w Hw. exact Hw. Qed.

Lemma hoare_ret {A} (P : World -> Prop) (x : A) : hoare P (mret x) P.
Proof. intros w Hw. exact Hw. Qed.

(** Syntax-directed proof that a handler keeps an invariant: [special]
    closes the calls that need their own lemma, [leaf] the primitive
    updates. *)
Ltac preserve_step special leaf :=
  first
    [ special
    | lazymatch goal with
      | |- hoare ?P (_ ≫= _) _ => apply (hoare_bind P P P); [ | auto | intros ]
      | |- hoare ?P (when _ _) _ => apply (hoare_when P)
      | |- hoare ?P skip _ => apply (hoare_skip P)
      | |- hoare ?P (read _) _ => apply (hoare_read P)
      | |- hoare ?P (throw _) _ => apply (hoare_throw P)
      | |- hoare ?P (mret _) _ => apply (hoare_ret P)
      | |- hoare ?P (setState _ _) _ => apply (hoare_setState P); leaf
      | |- hoare ?P (modify _) _ => apply (hoare_modify P P); leaf
      | |- hoare _ (match ?x with _ => _ end) _ => destruct x
      | |- hoare _ ?h _ => let f := head_of h in progress unfold f; cbv zeta
      end ].

Ltac preserve special leaf := repeat preserve_step special leaf.

(** ** One open audio context *)


Lemma context_close_one_open c : hoare one_open_context (context_close c) one_open_context.
Proof.
  intros [? ? ? ? acr ? ? ? ? ? ? ? ? ctxs ? ? ? ? ? ? ?] H c' ctx'. cbn in *.
  destruct (decide (c = c')) as [->|Hne].
  - rewrite lookup_alter_eq. destruct (ctxs !! c') as [x|]; cbn; [|discriminate].
    intros [= <-]. discriminate.
  - rewrite lookup_alter_ne by assumption. apply H.
Qed.

Lemma setupAudioProcessing_one_open s :
  hoare one_open_context (setupAudioProcessing s) one_open_context.
Proof.
  intros [? ? ? ? acr ? ? ? ? n ? ? ? ctxs ? ? ? ? ? ? ?] H.
  unfold exec, setupAudioProcessing, context_close, fresh, updateVolume, setVolume,
    setState, modify, read, skip, mbind, mret, Handler_bind, Handler_ret.
  destruct acr as [c0|]; cbn;
    match goal with |- context [if ?b then _ else _] => destruct b end; cbn;
    intros c ctx Hl Ho; cbn in *;
    (destruct (decide (n = c)) as [->|Hne]; [reflexivity|]);
    rewrite lookup_insert_ne in Hl by assumption.
  1,2: destruct (decide (c0 = c)) as [->|Hne0];
    [ rewrite lookup_alter_eq in Hl; destruct (ctxs !! c); cbn in Hl; [|discriminate];
      injection Hl as <-; discriminate
    | rewrite lookup_alter_ne in Hl by assumption;
      specialize (H c ctx Hl Ho); cbn in H; congruence ].
  1,2: specialize (H c ctx Hl Ho); cbn in H; discriminate.
Qed.

Ltac context_special :=
  idtac;
  lazymatch goal with
  | |- hoare _ (context_close _) _ => apply context_close_one_open
  | |- hoare _ (setupAudioProcessing _) _ => apply setupAudioProcessing_one_open
  end.

Ltac context_leaf :=
  let H := fresh "H" in
  intros [[] ? ? ? ? ? ? ? ? ? ? ? ? ? ? ? ? ? ? ? ?] H; exact H.

Lemma commit_one_open : hoare one_open_context commit one_open_context.
Proof. preserve context_special context_leaf. Qed.

Lemma handler_one_open e w h :
  handler_of e w = Some h -> one_open_context w -> one_open_context (exec h w).
Proof.
  revert e h.
  apply (handler_of_cases w (fun _ h => one_open_context w -> one_open_context (exec h w)));
    intros;
    try (match goal with
         | H : one_open_context w |- one_open_context (exec ?h w) =>
             let Hh := fresh in
             assert (Hh : hoare one_open_context h one_open_context)
               by (preserve context_special context_leaf);
             exact (Hh w H)
         end).
  destruct w as [? ? ? ? acr ? ? ? ? ? ? ? ? ctxs ? ? ? ? ? ? ?]. cbn in *.
  intros c' ctx' Hl Ho. cbn in *.
  destruct (decide (c = c')) as [<-|Hne].
  - exact (H2 c ctx H H0).
  - rewrite lookup_insert_ne in Hl by assumption. exact (H2 c' ctx' Hl Ho).
Qed.

Lemma mounted_one_open : one_open_context mounted.
Proof. intros c ctx Hl. vm_compute in Hl. discriminate. Qed.

(** X2.  In every reachable state at most one audio context is open, and it
    is the one [audioContextRef] holds: [setupAudioProcessing] closes the
    context of the previous stream before it builds the next one, and
    nothing else opens a context. *)
Theorem one_audio_context_open (w : World) (c : nat) (ctx : AudioContextObj) :
  reachable w -> contexts w !! c = Some ctx -> ctxClosed ctx = false ->
  audioContextRef w = Some c.
Proof.
  intros Hr. revert c ctx. change (one_open_context w). revert w Hr.
  apply reachable_invariant; [exact mounted_one_open|].
  intros e w h _ He Hw. apply commit_one_open. now apply (handler_one_open e).
Qed.

Lemma one_audio_context_open_witness :
  audioContextRef (world_after acquire) = Some 12%nat.
Proof.
  apply (one_audio_context_open (world_after acquire) 12
           {| ctxStream := 9; ctxClosed := false;
              ctxFrequencyData := repeat Byte.x00 bufferLength |}).
  - exists acquire. vm_compute. reflexivity.
  - vm_compute. reflexivity.
  - reflexivity.
Defined.

(** ** Identities are fresh *)


Ltac alloc_facts :=
  repeat match goal with
    | H : <[_ := _]> _ !! _ = Some _ |- _ =>
        apply lookup_insert_Some in H; destruct H as [[<- <-] | [? H]]
    | H : delete _ _ !! _ = Some _ |- _ =>
        apply lookup_delete_Some in H; destruct H as [? H]
    | H : alter _ _ _ !! _ = Some _ |- _ =>
        apply lookup_alter_Some in H; destruct H as [[<- (? & H & ->)] | [? H]]
    | H : Some _ = Some _ |- _ => injection H as <-
    | H : None = Some _ |- _ => discriminate H
    end;
  repeat match goal with
    | Hall : forall _ _, ?m !! _ = Some _ -> _, Hx : ?m !! _ = Some _ |- _ =>
        pose proof (Hall _ _ Hx); clear Hx
    | Hall : forall _, ?o = Some _ -> _, Hx : ?o = Some _ |- _ =>
        pose proof (Hall _ Hx); clear Hx
    end.

Ltac alloc_close :=
  cbn in *; alloc_facts; cbn in *;
  repeat match goal with
    | |- _ /\ _ => split
    | H : _ /\ _ |- _ => destruct H
    end;
  first [ lia | assumption
        | (intros Hx; rewrite lookup_insert_ne in Hx by lia; tauto)
        | (intros Hx; rewrite lookup_insert_eq in Hx; discriminate)
        | (intros Hx; apply lookup_delete_Some in Hx; tauto)
        | idtac ].

Ltac alloc_leaf :=
  let H := fresh "H" in
  intros [[] ? ? ? ? ? ? ? ? ? ? ? ? ? ? ? ? ? ? ? ?] H;
  first [ exact H | destruct H; split; cbn; intros; alloc_close ].

(** A handler computed on a world whose fields are variables. *)
Ltac alloc_direct :=
  let H := fresh "H" in
  intros [[] ? ? ? ? ? ? ? ? ? ? ? ? ? ? ? ? ? ? ? ?] H; destruct H;
  unfold exec, userMediaGranted, handlePermission_resolved, onstop, effect_countdown,
    new_Blob, setInterval, setMediaStream, setRecordedVideo, fresh, setState, modify, read,
    skip, mbind, mret, Handler_bind, Handler_ret;
  cbn;
  repeat match goal with |- context [if ?b then _ else _] => destruct b eqn:?; cbn end;
  split; cbn; intros; alloc_close.

Lemma setInterval_allocated cb : hoare allocated (setInterval cb) allocated.
Proof. alloc_direct. Qed.

Lemma effect_countdown_allocated r : hoare allocated (effect_countdown r) allocated.
Proof. alloc_direct. Qed.

Lemma userMediaGranted_allocated k ids : hoare allocated (userMediaGranted k ids) allocated.
Proof. alloc_direct. Qed.

Lemma onstop_allocated a : hoare allocated (onstop a) allocated.
Proof. alloc_direct. Qed.

Ltac alloc_special :=
  idtac;
  lazymatch goal with
  | |- hoare _ (setInterval _) _ => apply setInterval_allocated
  | |- hoare _ (effect_countdown _) _ => apply effect_countdown_allocated
  | |- hoare _ (userMediaGranted _ _) _ => apply userMediaGranted_allocated
  | |- hoare _ (onstop _) _ => apply onstop_allocated
  end.

Lemma commit_allocated : hoare allocated commit allocated.
Proof. preserve alloc_special alloc_leaf. Qed.

Lemma handler_allocated e w h :
  handler_of e w = Some h -> allocated w -> allocated (exec h w).
Proof.
  revert e h.
  apply (handler_of_cases w (fun _ h => allocated w -> allocated (exec h w)));
    intros;
    match goal with
    | H : allocated w |- allocated (exec ?h w) =>
        let Hh := fresh in
        assert (Hh : hoare allocated h allocated) by (preserve alloc_special alloc_leaf);
        exact (Hh w H)
    end.
Qed.

Lemma mounted_allocated : allocated mounted.
Proof.
  split; intros ? ?; try intros ?; vm_compute in *; try discriminate.
Qed.

Lemma reachable_allocated w : reachable w -> allocated w.
Proof.
  revert w. apply reachable_invariant; [exact mounted_allocated|].
  intros e w h _ He Hw. apply commit_allocated. now apply (handler_allocated e).
Qed.

(** ** A granted request *)

(** Unfold one whole turn, handler and renders, down to the primitive
    updates. *)
Ltac run_turn :=
  unfold dispatch, exec, commit, render_pass, run_effects, render, when,
    handleSubmit, denyMediaPermissions, onChangeVideoSource, onChangeAudioSource,
    handleDeviceChange, stopRecording, startRecording, beginRecording, intervalCallback,
    updateCountdown, updateRecordingTime, devicesEnumerated,
    userMediaGranted, handlePermission_resolved, effect_devices, effect_audio,
    effect_reacquire, effect_countdown, effect_playback, cleanup_countdown,
    cleanup_playback, enumerateDevices, getUserMedia, handlePermission,
    setupAudioProcessing, updateVolume, context_close, stream_stopTracks,
    recorder_stop, recorder_start, new_MediaRecorder, setTimeout_beginRecording,
    setInterval, clearInterval, createObjectURL, console_log, console_error, throw,
    setMediaStream, setVolume, setAudioDevices, setVideoDevices, setRecording,
    setRecordingTime, setIsSubmit, setCountdown, setSelectedVideoDevice,
    setSelectedAudioDevice, setVideoSrc, setRecordedVideo, fresh, setState,
    modify, read, skip, mbind, mret, Handler_bind, Handler_ret.

(** Evaluate the unfolded turn: compute, decide the dependency tests, and
    split on what the world leaves open. *)
Ltac eval_turn :=
  repeat first
    [ progress cbn -[String.eqb]
    | rewrite Z.eqb_refl
    | rewrite String.eqb_refl
    | rewrite bool_decide_eq_true_2 by reflexivity
    | rewrite bool_decide_eq_false_2 by discriminate
    | rewrite andb_false_r
    | rewrite orb_true_r
    | match goal with
      | H : bool_decide ?P = _ |- context [bool_decide ?P] => rewrite H
      | H : String.eqb ?a ?b = _ |- context [String.eqb ?a ?b] => rewrite H
      | H : Z.eqb ?a ?b = _ |- context [Z.eqb ?a ?b] => rewrite H
      | H : ?b = _ |- context [if ?b then _ else _] => rewrite H
      | H : ?o = _ |- context [match ?o with Some _ => _ | None => _ end] => rewrite H
      | |- context [if Qeq_bool ?a ?b then _ else _] => destruct (Qeq_bool a b) eqn:?
      | |- context [match ?x with Some _ => _ | None => _ end] => is_var x; destruct x
      | |- context [if ?x then _ else _] => is_var x; destruct x
      end ].

(** X3.  When the platform grants a pending [getUserMedia] request, the
    turn stores the new stream (for the pair of devices that was asked for,
    with two live tracks) in [mediaStream] and as the source of the preview,
    the request is no longer pending, the streams that existed stay
    untouched (none is stopped), a new open audio context is built on the
    new stream and held by [audioContextRef], and the devices are enumerated
    again for the current selection. *)
Theorem granted_stream_is_bound (w : World) (k : nat) (ids : string * string) :
  reachable w -> userMediaRequests w !! k = Some ids ->
  exists w',
    dispatch (UserMediaGranted k) w = Some w' /\
    let s := nextId w in
    streams w !! s = None /\
    streams w' =
      <[s := {| streamVideoId := ids.1; streamAudioId := ids.2; tracks := [live; live] |}]>
        (streams w) /\
    mediaStream (st w') = Some s /\
    srcObject w' = Some s /\
    userMediaRequests w' = delete k (userMediaRequests w) /\
    (exists c ctx, audioContextRef w' = Some c /\ contexts w' !! c = Some ctx /\
                   ctxStream ctx = s /\ ctxClosed ctx = false) /\
    (exists e, enumerations w' !! e =
                 Some (selectedVideoDevice (st w), selectedAudioDevice (st w))).
Proof.
  intros Hr Hk.
  pose proof (reachable_quiescent w Hr) as [Hd Hv].
  pose proof (reachable_allocated w Hr) as [Hs _ Hss _ _].
  unfold dispatch, handler_of. rewrite Hk. cbn [fmap option_fmap option_map].
  eexists. split; [reflexivity|].
  destruct w as [[ms vd ad rt vol sv sa rec vs sub rv cd] d [vsn vch] mrr acr anr src cc vc n
                 strs recs arrs ctxs tos itv reqs ens urls con frs].
  cbn in Hd, Hv, Hs, Hss, Hk. subst d vsn.
  assert (Hms : bool_decide (ms = Some n) = false).
  { apply bool_decide_eq_false_2. intros ->. specialize (Hs n eq_refl). lia. }
  assert (Hsn : strs !! n = None).
  { destruct (strs !! n) eqn:E; [|reflexivity]. apply Hss in E. lia. }
  clear Hr Hs Hss. run_turn. eval_turn.
  all: repeat apply conj; try reflexivity; try assumption.
  all: try (eexists _, _; split; [reflexivity|]; split; [apply lookup_insert_eq|];
            split; reflexivity).
  all: eexists; apply lookup_insert_eq.
Qed.

Lemma granted_stream_is_bound_witness :
  exists w', dispatch (UserMediaGranted 2) (world_after [ClickAskPermission]) = Some w' /\
             mediaStream (st w') = Some 3%nat /\ srcObject w' = Some 3%nat.
Proof.
  destruct (granted_stream_is_bound (world_after [ClickAskPermission]) 2%nat ("", ""))
    as (w' & Hd & _ & _ & Hm & Hs & _).
  - exists [ClickAskPermission]. vm_compute. reflexivity.
  - vm_compute. reflexivity.
  - exists w'. auto.
Defined.

(** ** Submitting *)




Lemma commit_untouched : respects (keeps untouched_by_render) commit.
Proof. unfold untouched_by_render. frame. Qed.




(** ** A device change, the whole turn *)




(** ** The selection effect *)

(** X6.  The first enumeration of a session: with nothing selected and a
    camera and a microphone in the enumeration (with non-empty ids), the
    turn selects the first of each and the selection effect (lines 57-61)
    asks for a stream for that pair, while the current stream stays in
    [mediaStream] with its tracks as they were and no audio context is
    built. *)
Theorem default_selection_reacquires
    (w : World) (k s : nat) (devices : list MediaDeviceInfo) (cam mic : MediaDeviceInfo) :
  reachable w ->
  enumerations w !! k = Some ("", "") ->
  selectedVideoDevice (st w) = "" -> selectedAudioDevice (st w) = "" ->
  mediaStream (st w) = Some s ->
  head (filter (fun device => kind device = videoinput) devices) = Some cam ->
  head (filter (fun device => kind device = audioinput) devices) = Some mic ->
  deviceId cam <> "" -> deviceId mic <> "" ->
  exists w',
    dispatch (DevicesEnumerated k devices) w = Some w' /\
    selectedVideoDevice (st w') = deviceId cam /\
    selectedAudioDevice (st w') = deviceId mic /\
    userMediaRequests w' =
      <[S (nextId w) := (deviceId cam, deviceId mic)]> (userMediaRequests w) /\
    mediaStream (st w') = Some s /\
    streams w' = streams w /\
    contexts w' = contexts w.
Proof.
  intros Hr Hk Hsv Hsa Hs Hcam Hmic Hc Hm.
  destruct (reachable_quiescent w Hr) as [Hd Hq].
  destruct w as [[ms vd ad rt vol sv sa rec vs sub rv cd] d [sn ch] mrr acr anr src cc vc n
                   strs recs arrs ctxs tos itv reqs ens urls con frs].
  cbn in Hd, Hq, Hk, Hsv, Hsa, Hs. subst d sn sv sa ms. clear Hr.
  assert (Ec1 : String.eqb "" (deviceId cam) = false) by (apply String.eqb_neq; congruence).
  assert (Ec2 : String.eqb (deviceId cam) "" = false) by (apply String.eqb_neq; congruence).
  assert (Em1 : String.eqb "" (deviceId mic) = false) by (apply String.eqb_neq; congruence).
  assert (Em2 : String.eqb (deviceId mic) "" = false) by (apply String.eqb_neq; congruence).
  eexists. split.
  { unfold dispatch, handler_of. cbn. rewrite Hk. cbn. reflexivity. }
  unfold devicesEnumerated.
  destruct (filter (fun device => kind device = videoinput) devices) as [|cam' videos];
    [discriminate Hcam|]. injection Hcam as ->.
  destruct (filter (fun device => kind device = audioinput) devices) as [|mic' audios];
    [discriminate Hmic|]. injection Hmic as ->.
  run_turn. unfold truthy. eval_turn.
  repeat apply conj; reflexivity.
Qed.

Lemma default_selection_reacquires_witness :
  exists w',
    dispatch (DevicesEnumerated 5 [cam1; mic1; cam2])
      (world_after [ClickAskPermission; UserMediaGranted 2]) = Some w' /\
    userMediaRequests w' !! 8%nat = Some ("cam1", "mic1") /\
    mediaStream (st w') = Some 3%nat.
Proof.
  destruct (default_selection_reacquires
              (world_after [ClickAskPermission; UserMediaGranted 2]) 5 3
              [cam1; mic1; cam2] cam1 mic1)
    as (w' & Hd & _ & _ & Hreq & Hms & _).
  - exists [ClickAskPermission; UserMediaGranted 2]. vm_compute. reflexivity.
  - vm_compute. reflexivity.
  - vm_compute. reflexivity.
  - vm_compute. reflexivity.
  - vm_compute. reflexivity.
  - vm_compute. reflexivity.
  - vm_compute. reflexivity.
  - discriminate.
  - discriminate.
  - exists w'. split; [exact Hd|]. split; [|exact Hms].
    rewrite Hreq. apply lookup_insert_eq.
Defined.

(** ** The scheduled start *)

Ltac timeout_leaf :=
  let H := fresh "H" in
  intros [[] ? ? ? ? ? ? ? ? ? ? ? ? ? ? ? ? ? ? ? ?] H; cbn in *;
  first [ exact H | set_solver ].

Ltac no_special := idtac; fail.

Lemma commit_keeps_timeout t :
  hoare (fun w => t ∈ timeouts w) commit (fun w => t ∈ timeouts w).
Proof. preserve no_special timeout_leaf. Qed.

Lemma handler_keeps_timeout t e w h :
  handler_of e w = Some h -> e <> TimeoutFired t ->
  hoare (fun w => t ∈ timeouts w) h (fun w => t ∈ timeouts w).
Proof.
  revert e h.
  apply (handler_of_cases w (fun e h => e <> TimeoutFired t ->
           hoare (fun w => t ∈ timeouts w) h (fun w => t ∈ timeouts w)));
    intros; try (assert (t0 <> t) by congruence);
    preserve no_special timeout_leaf.
Qed.

(** X7.  The three-second timeout of [startRecording] is never cancelled:
    once scheduled it stays pending through every run of events in which it
    does not fire itself (stop, submit, device changes and further starts
    included), and it can then still fire. *)
Theorem scheduled_start_is_never_cancelled (w w' : World) (es : list Event) (t : nat) :
  t ∈ timeouts w -> TimeoutFired t ∉ es -> run es w = Some w' ->
  t ∈ timeouts w' /\ is_Some (dispatch (TimeoutFired t) w').
Proof.
  intros Ht Hes Hrun.
  assert (Ht' : t ∈ timeouts w').
  { revert w Ht Hrun. induction es as [|e es IH]; intros w Ht Hrun; cbn in Hrun.
    - now injection Hrun as <-.
    - destruct (dispatch e w) as [w1|] eqn:Hd; [|discriminate]. cbn in Hrun.
      apply (IH ltac:(set_solver) w1); [|exact Hrun].
      unfold dispatch in Hd. destruct (handler_of e w) as [h|] eqn:He; [|discriminate].
      injection Hd as <-.
      apply commit_keeps_timeout. apply (handler_keeps_timeout t e w h He); [set_solver|exact Ht]. }
  split; [exact Ht'|].
  unfold dispatch, handler_of. rewrite bool_decide_eq_true_2 by exact Ht'. cbn. eauto.
Qed.

Lemma scheduled_start_is_never_cancelled_witness :
  15%nat ∈ timeouts (world_after (acquire ++ [ClickRecordButton; ClickSubmit;
                                               ChangeVideoSource "cam2"])).
Proof.
  refine (proj1 (scheduled_start_is_never_cancelled
                   (world_after (acquire ++ [ClickRecordButton]))
                   (world_after (acquire ++ [ClickRecordButton; ClickSubmit;
                                             ChangeVideoSource "cam2"]))
                   [ClickSubmit; ChangeVideoSource "cam2"] 15 _ _ _)).
  - refine (bool_decide_unpack _ _). vm_compute. exact I.
  - intros H. apply elem_of_cons in H as [H|H]; [discriminate H|].
    apply elem_of_cons in H as [H|H]; [discriminate H|].
    now apply elem_of_nil in H.
  - vm_compute. reflexivity.
Defined.

(** ** The elapsed-time interval *)

Lemma hoare_conj (P Q : World -> Prop) {A} (h : Handler A) :
  hoare P h P -> hoare (fun w => P w /\ Q w) h Q ->
  hoare (fun w => P w /\ Q w) h (fun w => P w /\ Q w).
Proof. intros HP HQ w Hw. split; [apply HP, Hw | apply HQ, Hw]. Qed.


Ltac ticking_direct :=
  let Ha := fresh "Ha" in
  let Hq := fresh "Hq" in
  intros [[] ? ? ? ? ? ? cc ? ? ? ? ? ? ? ? ? ? ? ? ?] [Ha Hq]; destruct Ha;
  unfold exec, userMediaGranted, handlePermission_resolved, onstop, effect_countdown,
    cleanup_countdown, clearInterval,
    new_Blob, setInterval, setMediaStream, setRecordedVideo, fresh, setState, modify, read,
    skip, mbind, mret, Handler_bind, Handler_ret;
  cbn in *;
  repeat match goal with
    | |- context [if ?b then _ else _] => destruct b eqn:?; cbn
    | |- context [match ?x with Some _ => _ | None => _ end] => destruct x eqn:?; cbn
    end;
  first
    [ exact Hq
    | rewrite lookup_insert_ne;
      [exact Hq | match goal with H : forall _ _, _ !! _ = Some _ -> _ |- _ =>
                    specialize (H _ _ Hq); lia end]
    | rewrite lookup_delete_ne;
      [exact Hq | match goal with H : forall _, Some _ = Some _ -> _ |- _ =>
                    destruct (H _ eq_refl); congruence end] ].

Ltac ticking_special :=
  idtac;
  lazymatch goal with
  | |- hoare _ (setInterval _) _ =>
      apply hoare_conj; [apply setInterval_allocated | ticking_direct]
  | |- hoare _ (effect_countdown _) _ =>
      apply hoare_conj; [apply effect_countdown_allocated | ticking_direct]
  | |- hoare _ (userMediaGranted _ _) _ =>
      apply hoare_conj; [apply userMediaGranted_allocated | ticking_direct]
  | |- hoare _ (onstop _) _ =>
      apply hoare_conj; [apply onstop_allocated | ticking_direct]
  | |- hoare _ cleanup_countdown _ =>
      apply hoare_conj; [preserve alloc_special alloc_leaf | ticking_direct]
  end.

Ltac ticking_leaf :=
  let Ha := fresh "Ha" in
  let Hq := fresh "Hq" in
  intros [[] ? ? ? ? ? ? ? ? ? ? ? ? ? ? ? ? ? ? ? ?] [Ha Hq];
  split; [ first [ exact Ha | destruct Ha; split; cbn; intros; alloc_close ]
         | exact Hq ].

Lemma commit_ticking t : hoare (ticking t) commit (ticking t).
Proof. unfold ticking. preserve ticking_special ticking_leaf. Qed.

Lemma handler_ticking t e w h :
  handler_of e w = Some h -> hoare (ticking t) h (ticking t).
Proof.
  revert e h. unfold ticking.
  apply (handler_of_cases w (fun _ h =>
           hoare (fun w => allocated w /\ intervals w !! t = Some ElapsedTick) h
                 (fun w => allocated w /\ intervals w !! t = Some ElapsedTick)));
    intros; preserve ticking_special ticking_leaf.
Qed.

Lemma run_ticking t es w w' :
  ticking t w -> run es w = Some w' -> ticking t w'.
Proof.
  revert w. induction es as [|e es IH]; intros w Ht Hrun; cbn in Hrun.
  - now injection Hrun as <-.
  - destruct (dispatch e w) as [w1|] eqn:Hd; [|discriminate]. cbn in Hrun.
    apply (IH w1); [|exact Hrun].
    unfold dispatch in Hd. destruct (handler_of e w) as [h|] eqn:He; [|discriminate].
    injection Hd as <-.
    apply commit_ticking. now apply (handler_ticking t e w h He).
Qed.

(** X8.  The elapsed-time interval of line 153 is never cleared: once armed
    in a reachable state it stays armed through every run of events, and
    each time it fires the elapsed time at the end of the turn is one more
    than before. *)
Theorem elapsed_interval_never_stops (w w' : World) (es : list Event) (t : nat) :
  reachable w -> intervals w !! t = Some ElapsedTick -> run es w = Some w' ->
  intervals w' !! t = Some ElapsedTick /\
  exists w'', dispatch (IntervalFired t) w' = Some w'' /\
              recordingTime (st w'') = recordingTime (st w') + 1.
Proof.
  intros Hr Ht Hrun.
  destruct (run_ticking t es w w') as [_ Ht']; [split; [now apply reachable_allocated|exact Ht] | exact Hrun |].
  split; [exact Ht'|].
  eexists. split.
  { unfold dispatch, handler_of. rewrite Ht'. reflexivity. }
  rewrite (commit_keeps_recordingTime _).
  unfold intervalCallback, updateRecordingTime, setRecordingTime.
  rewrite exec_read, st_setState; [destruct (st w'); reflexivity|].
  intros [] E. cbn in *. apply Z.eqb_eq in E. now subst.
Qed.

Lemma elapsed_interval_never_stops_witness :
  intervals (world_after recordingCycle) !! 23%nat = Some ElapsedTick.
Proof.
  refine (proj1 (elapsed_interval_never_stops
                   (world_after (timeoutDue ++ [TimeoutFired 15]))
                   (world_after recordingCycle)
                   (skipn (length timeoutDue + 1) recordingCycle) 23 _ _ _)).
  - exists (timeoutDue ++ [TimeoutFired 15]). vm_compute. reflexivity.
  - vm_compute. reflexivity.
  - vm_compute. reflexivity.
Defined.

(** ** The playback URL *)


Lemma playback_of_fields o w w' :
  playback_fields w' = playback_fields w -> playback_of o w -> playback_of o w'.
Proof.
  unfold playback_fields, playback_of, urls_owned. intros [= -> -> ->]. auto.
Qed.

Lemma cleanup_playback_revokes :
  hoare urls_owned cleanup_playback (fun w => objectURLs w = ∅).
Proof.
  intros [[ms vd ad rt vol sv sa rec vs sub rv cd] d v mrr acr anr src cc vc n
            strs recs arrs ctxs tos itv reqs ens urls con frs]. unfold urls_owned. cbn.
  destruct vc as [u|]; cbn; [|auto].
  intros [-> _]. apply difference_diag_L.
Qed.

Lemma effect_playback_owns r :
  hoare (fun w => objectURLs w = ∅) (effect_playback r)
        (playback_of (recordedVideo (snap r))).
Proof.
  intros [[ms vd ad rt vol sv sa rec vs sub rv cd] d v mrr acr anr src cc vc n
            strs recs arrs ctxs tos itv reqs ens urls con frs]. cbn. intros ->.
  unfold exec, effect_playback, playback_of, urls_owned, createObjectURL, setVideoSrc,
    fresh, setState, modify, read, mbind, mret, Handler_bind, Handler_ret.
  destruct (recordedVideo (snap r)) as [b|]; cbn.
  - match goal with |- context [if ?b then _ else _] => destruct b eqn:E end; cbn.
    + apply String.eqb_eq in E. rewrite union_empty_r_L. split; [split|]; [reflexivity|exact E|].
      split; eauto.
    + rewrite union_empty_r_L. split; [split|]; [reflexivity..|]. split; eauto.
  - split; [reflexivity|]. split; intros [? [=]].
Qed.

Lemma effects_keep_playback r :
  respects (keeps playback_fields) cleanup_countdown /\
  respects (keeps objectURLs) (effect_devices r) /\
  respects (keeps objectURLs) (effect_audio r) /\
  respects (keeps objectURLs) (effect_reacquire r) /\
  respects (keeps objectURLs) (effect_countdown r) /\
  respects (keeps playback_fields) (effect_devices r) /\
  respects (keeps playback_fields) (effect_audio r) /\
  respects (keeps playback_fields) (effect_reacquire r) /\
  respects (keeps playback_fields) (effect_countdown r).
Proof. unfold playback_fields. repeat apply conj; frame. Qed.

Lemma effects_complete r :
  completes cleanup_countdown /\ completes cleanup_playback /\
  completes (effect_devices r) /\ completes (effect_audio r) /\
  completes (effect_reacquire r) /\ completes (effect_countdown r).
Proof. repeat apply conj; completes. Qed.

Lemma is_Some_blobId (o o' : option Blob) :
  blobId <$> o = blobId <$> o' -> (is_Some o <-> is_Some o').
Proof. destruct o, o'; cbn; intros [=]; split; eauto; intros [? [=]]. Qed.

Lemma hoare_kept_fields (P : World -> Prop) {A} (h : Handler A) :
  (forall w w', playback_fields w' = playback_fields w -> P w -> P w') ->
  respects (keeps playback_fields) h -> hoare P h P.
Proof. intros HP Hk w Hw. exact (HP w _ (Hk w) Hw). Qed.

Lemma urls_owned_fields w w' :
  playback_fields w' = playback_fields w -> urls_owned w -> urls_owned w'.
Proof. unfold playback_fields, urls_owned. intros [= -> -> ->]. auto. Qed.

Lemma hoare_no_urls {A} (h : Handler A) :
  respects (keeps objectURLs) h ->
  hoare (fun w => objectURLs w = ∅) h (fun w => objectURLs w = ∅).
Proof. intros Hk w Hw. now rewrite (Hk w). Qed.

Lemma run_effects_playback old r :
  hoare (playback_of (recordedVideo old)) (run_effects old r)
        (playback_of (recordedVideo (snap r))).
Proof.
  destruct (effects_keep_playback r) as (K0 & K1 & K2 & K3 & K4 & F1 & F2 & F3 & F4).
  destruct (effects_complete r) as (C0 & C1 & C2 & C3 & C4 & C5).
  unfold run_effects. cbv zeta.
  destruct (bool_decide (blobId <$> recordedVideo old = blobId <$> recordedVideo (snap r)))
    eqn:Ev; cbn [negb when].
  - apply bool_decide_eq_true in Ev. apply is_Some_blobId in Ev.
    assert (Hpost : forall w, playback_of (recordedVideo old) w ->
                              playback_of (recordedVideo (snap r)) w).
    { intros w [H1 H2]. split; [exact H1|]. now rewrite H2. }
    intros w Hw. apply Hpost. revert w Hw.
    set (P := playback_of (recordedVideo old)).
    assert (HP : forall h : Handler unit, respects (keeps playback_fields) h -> hoare P h P)
      by (intros h; apply hoare_kept_fields, playback_of_fields).
    repeat (apply (hoare_bind P P P); [ | auto | intros _ ]);
      try (apply hoare_when); try (apply hoare_skip); apply HP; assumption.
  - set (E := fun w => objectURLs w = ∅).
    intros w [Hw _]. revert w Hw.
    apply (hoare_bind_completes _ urls_owned); [now apply completes_when | | intros _].
    { apply hoare_when, hoare_kept_fields; [apply urls_owned_fields | exact K0]. }
    apply (hoare_bind_completes _ E); [exact C1 | apply cleanup_playback_revokes | intros _].
    apply (hoare_bind_completes _ E);
      [now apply completes_when | now apply hoare_when, hoare_no_urls | intros _].
    apply (hoare_bind_completes _ E);
      [now apply completes_when | now apply hoare_when, hoare_no_urls | intros _].
    apply (hoare_bind_completes _ E);
      [now apply completes_when | now apply hoare_when, hoare_no_urls | intros _].
    apply (hoare_bind_completes _ E);
      [now apply completes_when | now apply hoare_when, hoare_no_urls | intros _].
    apply effect_playback_owns.
Qed.


Lemma render_pass_playback : hoare playback_current render_pass playback_current.
Proof.
  intros w Hw. unfold render_pass. rewrite exec_read.
  destruct (dirty w) eqn:D; cbn [when]; [|exact Hw].
  rewrite exec_read, exec_bind.
  destruct (render_quiescent w) as (w' & Hrender & [Hc Hv] & Hs).
  pose proof (f_equal snd Hrender) as Hw'. cbn in Hw'.
  rewrite Hrender. rewrite exec_read.
  destruct (run_effects_frame (snap (view w)) (view w') w') as [_ [Tv _]].
  unfold playback_current. rewrite Tv.
  apply run_effects_playback.
  apply (playback_of_fields _ w); [|exact Hw].
  rewrite <- Hw'. destruct w. reflexivity.
Qed.

Lemma commit_playback : hoare playback_current commit playback_current.
Proof. apply hoare_seq; apply render_pass_playback. Qed.

Lemma handler_playback e w h :
  handler_of e w = Some h -> playback_current w -> playback_current (exec h w).
Proof.
  intros He Hw. destruct (handler_turn e w h He) as [Tv _].
  unfold playback_current. rewrite Tv. revert Hw.
  apply playback_of_fields. clear Tv. revert e h He.
  apply (handler_of_cases w (fun _ h => playback_fields (exec h w) = playback_fields w));
    intros;
    match goal with
    | |- playback_fields (exec ?h w) = _ =>
        let Hh := fresh in
        assert (Hh : respects (keeps playback_fields) h) by (unfold playback_fields; frame);
        exact (Hh w)
    end.
Qed.

Lemma mounted_playback : playback_current mounted.
Proof. split; [reflexivity|]. split; intros [? H]; vm_compute in H; discriminate H. Qed.

Lemma reachable_playback w : reachable w -> playback_current w.
Proof.
  revert w. apply reachable_invariant; [exact mounted_playback|].
  intros e w h _ He Hw. apply commit_playback. now apply (handler_playback e).
Qed.

(** X9.  In every reachable state with a recording, exactly one object URL
    is live and it is the source of the playback video; with no recording no
    object URL is live.  The clean-up of the playback effect revokes the
    previous URL before the effect creates the next one. *)
Theorem playback_source_is_the_live_url (w : World) :
  reachable w ->
  match recordedVideo (st w) with
  | Some _ => exists u, objectURLs w = {[u]} /\ videoSrc (st w) = u
  | None => objectURLs w = ∅
  end.
Proof.
  intros Hr. destruct (reachable_playback w Hr) as [Hu Hc].
  destruct (reachable_quiescent w Hr) as [_ Hq]. rewrite Hq in Hc.
  unfold urls_owned in Hu.
  destruct (recordedVideo (st w)) as [b|], (videoURLCleanup w) as [u|].
  - exists u. exact Hu.
  - destruct (proj2 Hc (ex_intro _ b eq_refl)) as [x Hx]. discriminate Hx.
  - destruct (proj1 Hc (ex_intro _ u eq_refl)) as [x Hx]. discriminate Hx.
  - exact Hu.
Qed.

Lemma playback_source_is_the_live_url_witness :
  exists u, objectURLs (world_after recordingCycle) = {[u]} /\
            videoSrc (st (world_after recordingCycle)) = u.
Proof.
  pose proof (playback_source_is_the_live_url (world_after recordingCycle)) as H.
  destruct (recordedVideo (st (world_after recordingCycle))) as [b|] eqn:Hv.
  - apply H. exists recordingCycle. vm_compute. reflexivity.
  - exfalso. vm_compute in Hv. discriminate Hv.
Defined.

(** ** The countdown and the start of a recording *)

Lemma reachable_countdown w : reachable w -> countdown_inv w.
Proof. intros [es Hes]. exact (run_countdown es mounted w Hes mounted_countdown). Qed.

(** X10.  A tick of the countdown interval lowers the countdown by exactly
    one and clears the interval that fired; when the countdown has reached 0
    no countdown interval is armed any more, and otherwise the effect has
    armed a new one, which it owns. *)
Theorem countdown_tick_counts_down (w : World) (t : nat) :
  reachable w -> intervals w !! t = Some CountdownTick ->
  exists w',
    dispatch (IntervalFired t) w = Some w' /\
    countdown (st w') = countdown (st w) - 1 /\
    intervals w' !! t = None /\
    if countdown (st w') =? 0 then disarmed w'
    else exists i, intervals w' !! i = Some CountdownTick /\ countdownCleanup w' = Some i.
Proof.
  intros Hr Ht.
  destruct (reachable_quiescent w Hr) as [Hd Hq].
  destruct (reachable_countdown w Hr) as [_ Harmed _].
  destruct (reachable_allocated w Hr) as [_ _ _ Hitv _].
  destruct w as [[ms vd ad rt vol sv sa rec vs sub rv cd] d [sn ch] mrr acr anr src cc vc n
                   strs recs arrs ctxs tos itv reqs ens urls con frs].
  cbn in Hd, Hq, Ht, Harmed, Hitv. subst d sn.
  destruct (Harmed t Ht) as [Hpos ->].
  pose proof (Hitv t _ Ht) as Hlt.
  assert (E1 : (cd =? cd - 1) = false) by lia.
  clear Hr Hitv.
  eexists. split.
  { unfold dispatch, handler_of. cbn. rewrite Ht. cbn. reflexivity. }
  run_turn. eval_turn.
  destruct (cd - 1 <=? 0) eqn:E2; eval_turn.
  - split; [reflexivity|]. split; [apply lookup_delete_eq|].
    replace (cd - 1 =? 0) with true by lia.
    intros t' Ht'. cbn in Ht'. apply lookup_delete_Some in Ht' as [Hne Ht'].
    destruct (Harmed t' Ht') as [_ [= ->]]. congruence.
  - split; [reflexivity|]. split.
    + rewrite lookup_insert_ne by lia. apply lookup_delete_eq.
    + replace (cd - 1 =? 0) with false by lia.
      eexists. split; [apply lookup_insert_eq | reflexivity].
Qed.

Lemma countdown_tick_counts_down_witness :
  exists w', dispatch (IntervalFired 19) (world_after countingDown) = Some w' /\
             countdown (st w') = 1.
Proof.
  destruct (countdown_tick_counts_down (world_after countingDown) 19)
    as (w' & Hd & Hc & _).
  - exists countingDown. vm_compute. reflexivity.
  - vm_compute. reflexivity.
  - exists w'. split; [exact Hd|]. rewrite Hc. vm_compute. reflexivity.
Defined.

(** X11.  The record button with a live session and no recording running:
    the countdown is 3, [recording] is still false, the ref holds a new
    inactive recorder on the current stream whose callbacks use the
    [chunks] array of the render the handler belongs to, one more timeout is
    pending, and unless the countdown was 3 already the effect has armed a
    countdown interval. *)
Theorem start_arms_countdown_and_recorder (w : World) (s : nat) :
  reachable w -> mediaStream (st w) = Some s -> recording (st w) = false ->
  exists w',
    dispatch ClickRecordButton w = Some w' /\
    countdown (st w') = 3 /\
    recording (st w') = false /\
    mediaRecorderRef w' = Some (nextId w) /\
    recorders w' =
      <[nextId w := {| recStream := s; recState := RSinactive;
                       recChunks := chunks (view w); recStopsQueued := 0 |}]> (recorders w) /\
    timeouts w' = {[S (nextId w)]} ∪ timeouts w /\
    (countdown (st w) <> 3 ->
     exists i, intervals w' !! i = Some CountdownTick /\ countdownCleanup w' = Some i).
Proof.
  intros Hr Hs Hrec.
  destruct (reachable_quiescent w Hr) as [Hd Hq].
  destruct w as [[ms vd ad rt vol sv sa rec vs sub rv cd] d [sn ch] mrr acr anr src cc vc n
                   strs recs arrs ctxs tos itv reqs ens urls con frs].
  cbn in Hd, Hq, Hs, Hrec. subst d sn ms rec. clear Hr.
  eexists. split.
  { unfold dispatch, handler_of. cbn. reflexivity. }
  run_turn. cbn -[String.eqb Z.eqb].
  destruct (cd =? 3) eqn:E; eval_turn.
  - apply Z.eqb_eq in E. repeat apply conj; try reflexivity; [exact E|]. intros H. contradiction.
  - repeat apply conj; try reflexivity. intros _.
    eexists. split; [apply lookup_insert_eq | reflexivity].
  - repeat apply conj; try reflexivity. intros _.
    eexists. split; [apply lookup_insert_eq | reflexivity].
Qed.

Lemma start_arms_countdown_and_recorder_witness :
  exists w', dispatch ClickRecordButton (world_after acquire) = Some w' /\
             countdown (st w') = 3 /\ mediaRecorderRef w' = Some 14%nat.
Proof.
  destruct (start_arms_countdown_and_recorder (world_after acquire) 9)
    as (w' & Hd & Hc & _ & Hm & _).
  - exists acquire. vm_compute. reflexivity.
  - vm_compute. reflexivity.
  - vm_compute. reflexivity.
  - exists w'. exact (conj Hd (conj Hc Hm)).
Defined.

(** ** The sampling loop *)

Lemma alter_is_Some {A} (f : A -> A) (i j : nat) (m : gmap nat A) :
  is_Some (alter f i m !! j) <-> is_Some (m !! j).
Proof.
  destruct (decide (i = j)) as [->|Hne].
  - rewrite lookup_alter_eq. apply fmap_is_Some.
  - now rewrite lookup_alter_ne by assumption.
Qed.

Ltac loop_leaf :=
  let H := fresh "H" in
  intros [[] ? ? ? ? ? ? ? ? ? ? ? ? ? ? ? ? ? ? ? ?] H; cbn in *;
  first [ exact H
        | apply lookup_insert_is_Some'; right; exact H
        | apply alter_is_Some; exact H ].

Lemma commit_keeps_context c :
  hoare (fun w => is_Some (contexts w !! c)) commit (fun w => is_Some (contexts w !! c)).
Proof. preserve no_special loop_leaf. Qed.

Lemma handler_keeps_context c e w h :
  handler_of e w = Some h ->
  hoare (fun w => is_Some (contexts w !! c)) h (fun w => is_Some (contexts w !! c)).
Proof.
  revert e h.
  apply (handler_of_cases w (fun _ h =>
           hoare (fun w => is_Some (contexts w !! c)) h
                 (fun w => is_Some (contexts w !! c))));
    intros; preserve no_special loop_leaf.
Qed.

(** An audio context, once built, stays in the page, open or closed. *)
Lemma run_keeps_context c es w w' :
  is_Some (contexts w !! c) -> run es w = Some w' -> is_Some (contexts w' !! c).
Proof.
  revert w. induction es as [|e es IH]; intros w Hc Hrun; cbn in Hrun.
  - now injection Hrun as <-.
  - destruct (dispatch e w) as [w1|] eqn:Hd; [|discriminate]. cbn in Hrun.
    apply (IH w1); [|exact Hrun].
    unfold dispatch in Hd. destruct (handler_of e w) as [h|] eqn:He; [|discriminate].
    injection Hd as <-.
    apply commit_keeps_context. now apply (handler_keeps_context c e w h He).
Qed.

(** [updateVolume] asks for the next frame of its own context. *)
Lemma updateVolume_frames c w :
  animationFrames (exec (updateVolume c) w) = {[+ c +]} ⊎ animationFrames w /\
  contexts (exec (updateVolume c) w) = contexts w.
Proof.
  destruct w as [[ms vd ad rt vol sv sa rec vs sub rv cd] d v mrr acr anr src cc vc n
                 strs recs arrs ctxs tos itv reqs ens urls con frs].
  unfold exec, updateVolume, requestAnimationFrame, setVolume, setState, modify, read,
    mbind, mret, Handler_bind, Handler_ret.
  cbn. match goal with |- context [if ?b then _ else _] => destruct b end;
    split; reflexivity.
Qed.

Lemma exec_fresh {B} (k : nat -> Handler B) w :
  exec (fresh ≫= k) w = exec (k (nextId w)) (on_nextId S w).
Proof. destruct w. reflexivity. Qed.

Lemma setupAudioProcessing_loops s :
  hoare loops_running (setupAudioProcessing s) loops_running.
Proof.
  intros w Hw. unfold setupAudioProcessing.
  rewrite exec_read.
  set (w0 := exec (match audioContextRef w with
                   | Some c => context_close c
                   | None => skip
                   end) w).
  assert (H0 : loops_running w0 /\
               (match audioContextRef w with
                | Some c => context_close c
                | None => skip
                end) w = (Normal tt, w0)).
  { subst w0. destruct w as [[ms vd ad rt vol sv sa rec vs sub rv cd] d v mrr [c0|] anr
                 src cc vc n strs recs arrs ctxs tos itv reqs ens urls con frs];
      (split; [|reflexivity]); [|exact Hw].
    intros c' Hc'. cbn in *. apply alter_is_Some in Hc'. exact (Hw c' Hc'). }
  destruct H0 as [H0 E0].
  rewrite exec_bind, E0. cbv beta iota. clearbody w0. clear E0 Hw w.
  rewrite exec_fresh, !exec_modify.
  lazymatch goal with
  | |- loops_running (exec (updateVolume ?c) ?w1) =>
      destruct (updateVolume_frames c w1) as [Hf Hc]
  end.
  intros c' Hc'. rewrite Hf. rewrite Hc in Hc'.
  destruct w0 as [[ms vd ad rt vol sv sa rec vs sub rv cd] d v mrr acr anr src cc vc n
                 strs recs arrs ctxs tos itv reqs ens urls con frs].
  cbn [animationFrames contexts on_analyserRef on_audioContextRef on_contexts on_nextId]
    in *.
  apply gmultiset_elem_of_disj_union.
  apply lookup_insert_is_Some' in Hc' as [<-|Hc'];
    [left; now apply gmultiset_elem_of_singleton | right; exact (H0 c' Hc')].
Qed.

Lemma animationFrame_loops c : hoare loops_running (animationFrame c) loops_running.
Proof.
  intros w Hw. unfold animationFrame. rewrite exec_modify.
  match goal with
  | |- loops_running (exec (updateVolume c) ?w1) =>
      destruct (updateVolume_frames c w1) as [Hf Hc]
  end.
  intros c' Hc'. rewrite Hf. rewrite Hc in Hc'.
  destruct w as [[ms vd ad rt vol sv sa rec vs sub rv cd] d v mrr acr anr src cc vc n
                 strs recs arrs ctxs tos itv reqs ens urls con frs].
  cbn [animationFrames contexts on_animationFrames] in *.
  specialize (Hw c' Hc'). cbn [animationFrames] in Hw.
  apply gmultiset_elem_of_disj_union.
  destruct (decide (c = c')) as [->|Hne];
    [left; now apply gmultiset_elem_of_singleton | right].
  apply elem_of_multiplicity. apply elem_of_multiplicity in Hw.
  rewrite multiplicity_difference, multiplicity_singleton_ne, Nat.sub_0_r by congruence.
  exact Hw.
Qed.

Lemma context_close_loops c : hoare loops_running (context_close c) loops_running.
Proof.
  intros [[ms vd ad rt vol sv sa rec vs sub rv cd] d v mrr acr anr src cc vc n
            strs recs arrs ctxs tos itv reqs ens urls con frs] Hw c' Hc'.
  cbn in *. apply alter_is_Some in Hc'. exact (Hw c' Hc').
Qed.

Ltac loops_special :=
  idtac;
  lazymatch goal with
  | |- hoare _ (setupAudioProcessing _) _ => apply setupAudioProcessing_loops
  | |- hoare _ (animationFrame _) _ => apply animationFrame_loops
  | |- hoare _ (context_close _) _ => apply context_close_loops
  end.

Ltac loops_leaf :=
  let H := fresh "H" in
  intros [[] ? ? ? ? ? ? ? ? ? ? ? ? ? ? ? ? ? ? ? ?] H; exact H.

Lemma commit_loops : hoare loops_running commit loops_running.
Proof. preserve loops_special loops_leaf. Qed.

Lemma handler_loops e w h :
  handler_of e w = Some h -> loops_running w -> loops_running (exec h w).
Proof.
  revert e h.
  apply (handler_of_cases w (fun _ h => loops_running w -> loops_running (exec h w)));
    intros;
    try (match goal with
         | H : loops_running w |- loops_running (exec ?h w) =>
             let Hh := fresh in
             assert (Hh : hoare loops_running h loops_running)
               by (preserve loops_special loops_leaf);
             exact (Hh w H)
         end).
  destruct w as [[ms vd ad rt vol sv sa rec vs sub rv cd] d v mrr acr anr src cc vc n
                 strs recs arrs ctxs tos itv reqs ens urls con frs].
  intros c' Hc'. cbn in *.
  apply lookup_insert_is_Some' in Hc' as [<-|Hc'];
    match goal with H : loops_running _ |- _ => apply H end; cbn; eauto.
Qed.

Lemma mounted_loops : loops_running mounted.
Proof. intros c [ctx Hc]. vm_compute in Hc. discriminate Hc. Qed.

Lemma reachable_loops w : reachable w -> loops_running w.
Proof.
  revert w. apply reachable_invariant; [exact mounted_loops|].
  intros e w h _ He Hw. apply commit_loops. now apply (handler_loops e).
Qed.

(** X12.  The volume loop of lines 127-133 is never cancelled: every audio
    context of a reachable state has an [updateVolume] callback pending, and
    after every further run of events it still has one, which can run, also
    when the context has been closed and the session released.  Each
    callback that runs asks for the next frame, and nothing cancels one. *)
Theorem sampling_loop_never_stops (w w' : World) (es : list Event) (c : nat) :
  reachable w -> is_Some (contexts w !! c) -> run es w = Some w' ->
  c ∈ animationFrames w' /\
  exists w'', dispatch (AnimationFrame c) w' = Some w'' /\ c ∈ animationFrames w''.
Proof.
  intros Hr Hc Hrun.
  pose proof (reachable_run es w w' Hr Hrun) as Hr'.
  pose proof (run_keeps_context c es w w' Hc Hrun) as Hc'.
  pose proof (reachable_loops w' Hr' c Hc') as Hf.
  split; [exact Hf|].
  assert (Hd : dispatch (AnimationFrame c) w' =
               Some (exec commit (exec (animationFrame c) w'))).
  { unfold dispatch, handler_of. now rewrite bool_decide_eq_true_2 by exact Hf. }
  eexists. split; [exact Hd|].
  apply (reachable_loops _ (reachable_step _ _ _ Hr' Hd)).
  apply commit_keeps_context.
  assert (Hh : hoare (fun w => is_Some (contexts w !! c)) (animationFrame c)
                     (fun w => is_Some (contexts w !! c)))
    by (preserve no_special loop_leaf).
  exact (Hh w' Hc').
Qed.

Lemma sampling_loop_never_stops_witness :
  6%nat ∈ animationFrames (world_after (recordingCycle ++ [ClickSubmit])).
Proof.
  refine (proj1 (sampling_loop_never_stops
           (world_after [ClickAskPermission; UserMediaGranted 2])
           (world_after (recordingCycle ++ [ClickSubmit]))
           (skipn 2 (recordingCycle ++ [ClickSubmit])) 6 _ _ _)).
  - exists [ClickAskPermission; UserMediaGranted 2]. vm_compute. reflexivity.
  - refine (bool_decide_unpack _ _). vm_compute. exact I.
  - vm_compute. reflexivity.
Defined.

(** ** The controls *)

(** X13.  The controls follow the session.  Without a stream the record
    and submit buttons are not rendered, and a click on "Ask Permission"
    adds one [getUserMedia] request for the current selection and changes
    nothing else; with a stream "Ask Permission" is not rendered and the
    two buttons are. *)
Theorem controls_follow_session (w : World) :
  reachable w ->
  match mediaStream (st w) with
  | None =>
      dispatch ClickRecordButton w = None /\
      dispatch ClickSubmit w = None /\
      dispatch ClickAskPermission w =
        Some (on_userMediaRequests
                <[nextId w := (selectedVideoDevice (st w), selectedAudioDevice (st w))]>
                (on_nextId S w))
  | Some _ =>
      dispatch ClickAskPermission w = None /\
      is_Some (dispatch ClickRecordButton w) /\
      is_Some (dispatch ClickSubmit w)
  end.
Proof.
  intros Hr. destruct (reachable_quiescent w Hr) as [Hd Hq].
  unfold dispatch, handler_of. rewrite Hq.
  destruct (mediaStream (st w)) as [s|] eqn:Hs; cbn.
  - repeat apply conj; eauto.
  - repeat apply conj; try reflexivity.
    f_equal. unfold handlePermission. rewrite Hq.
    destruct w as [[ms vd ad rt vol sv sa rec vs sub rv cd] d [sn ch] mrr acr anr src cc vc n
                     strs recs arrs ctxs tos itv reqs ens urls con frs].
    cbn in Hd, Hq. subst d sn. reflexivity.
Qed.

Lemma controls_follow_session_witness :
  dispatch ClickRecordButton mounted = None /\
  dispatch ClickSubmit mounted = None /\
  dispatch ClickAskPermission mounted =
    Some (on_userMediaRequests <[nextId mounted := ("", "")]> (on_nextId S mounted)).
Proof.
  apply (controls_follow_session mounted). exists []. reflexivity.
Defined.

(** ** The callback of the timeout *)

(** [beginRecording] by the state of the recorder the ref holds. *)
Lemma beginRecording_effect (w : World) :
  let w' := exec beginRecording w in
  timeouts w' = timeouts w /\
  match mediaRecorderRef w with
  | Some k =>
      match recorders w !! k with
      | Some rec =>
          match recState rec with
          | RSinactive =>
              recording (st w') = true /\
              recorders w' =
                <[k := {| recStream := recStream rec; recState := RSrecording;
                          recChunks := recChunks rec;
                          recStopsQueued := recStopsQueued rec |}]> (recorders w)
          | _ => recording (st w') = recording (st w) /\ recorders w' = recorders w
          end
      | None => recording (st w') = true /\ recorders w' = recorders w
      end
  | None => recording (st w') = true /\ recorders w' = recorders w
  end.
Proof.
  destruct w as [[ms vd ad rt vol sv sa rec vs sub rv cd] d v mrr acr anr src cc vc n
                 strs recs arrs ctxs tos itv reqs ens urls con frs].
  unfold exec, beginRecording, setInterval, fresh, recorder_start, throw,
    setRecording, setRecordingTime, setState, modify, read, skip,
    mbind, mret, Handler_bind, Handler_ret.
  destruct (rt =? 0) eqn:E2; [apply Z.eqb_eq in E2; subst rt|];
  (destruct mrr as [k|]; [destruct (recs !! k) as [[? [] ? ?]|] eqn:Ek|]);
  destruct rec;
  repeat first [ progress cbn | rewrite Ek | rewrite E2 ];
  repeat apply conj; reflexivity.
Qed.

(** X14.  The turn in which the three-second timeout fires: the timeout is
    no longer pending, the elapsed time is 0 and a new elapsed-time interval
    is armed, whatever the recorder.  With an inactive recorder in the ref
    whose stream still has a live track, the recorder records and
    [recording] is true.  With a recorder that is already active [start()]
    throws, so [recording] and the recorders stay as they were.  With no
    recorder in the ref (the session was released) [recording] still
    becomes true. *)
Theorem timeout_callback_by_recorder_state (w : World) (t : nat) :
  reachable w -> t ∈ timeouts w ->
  exists w',
    dispatch (TimeoutFired t) w = Some w' /\
    timeouts w' = timeouts w ∖ {[t]} /\
    recordingTime (st w') = 0 /\
    intervals w' !! nextId w = Some ElapsedTick /\
    match mediaRecorderRef w ≫= (fun k => recorders w !! k) with
    | Some rec =>
        match recState rec with
        | RSinactive =>
            (exists m, streams w !! recStream rec = Some m /\ live ∈ tracks m) ->
            recording (st w') = true /\
            recState <$> (mediaRecorderRef w' ≫= (fun k => recorders w' !! k))
              = Some RSrecording
        | _ => recording (st w') = recording (st w) /\ recorders w' = recorders w
        end
    | None => recording (st w') = true /\ recorders w' = recorders w
    end.
Proof.
  intros Hr Ht.
  set (w0 := on_timeouts (fun ts => ts ∖ {[t]}) w).
  assert (Hh : handler_of (TimeoutFired t) w =
               Some (modify (on_timeouts (fun ts => ts ∖ {[t]}));; beginRecording)).
  { unfold handler_of. now rewrite bool_decide_eq_true_2 by exact Ht. }
  exists (exec commit (exec beginRecording w0)). split.
  { unfold dispatch. rewrite Hh. reflexivity. }
  pose proof (commit_untouched (exec beginRecording w0)) as Hk.
  unfold keeps, untouched_by_render in Hk.
  injection Hk as K1 K2 K3 K4 K5 K6 K7 K8 K9 K10 K11 K12 K13 K14.
  destruct (beginRecording_resets w0) as (B1 & B2 & _).
  destruct (beginRecording_effect w0) as (B3 & B4).
  assert (Hw0 : mediaRecorderRef w0 = mediaRecorderRef w /\ recorders w0 = recorders w /\
                nextId w0 = nextId w /\ timeouts w0 = timeouts w ∖ {[t]} /\
                recording (st w0) = recording (st w))
    by (destruct w; repeat apply conj; reflexivity).
  destruct Hw0 as (W1 & W2 & W3 & W4 & W5).
  rewrite W1, W2, W5 in B4. rewrite W3 in B2.
  assert (Hm : mediaRecorderRef (exec beginRecording w0) = mediaRecorderRef w).
  { rewrite <- W1.
    assert (H : respects (keeps mediaRecorderRef) beginRecording) by frame.
    apply H. }
  split; [congruence|]. split; [congruence|]. split.
  { assert (Htick : ticking (nextId w) (exec (modify (on_timeouts (fun ts => ts ∖ {[t]}));;
                                                beginRecording) w)).
    { split; [|exact B2].
      apply (handler_allocated (TimeoutFired t) w _ Hh). now apply reachable_allocated. }
    apply (commit_ticking (nextId w)) in Htick. apply Htick. }
  rewrite K3, K9, K12, Hm.
  destruct (mediaRecorderRef w) as [k|]; cbn; [|exact B4].
  destruct (recorders w !! k) as [rec|]; cbn; [|exact B4].
  destruct (recState rec); [|exact B4..].
  intros _. destruct B4 as [-> ->]. split; [reflexivity|]. now rewrite lookup_insert_eq.
Qed.

Lemma timeout_callback_by_recorder_state_witness :
  exists w',
    dispatch (TimeoutFired 15) (world_after timeoutDue) = Some w' /\
    recordingTime (st w') = 0 /\ recording (st w') = true.
Proof.
  destruct (timeout_callback_by_recorder_state (world_after timeoutDue) 15)
    as (w' & Hd & _ & Ht & _ & Hm).
  - exists timeoutDue. vm_compute. reflexivity.
  - refine (bool_decide_unpack _ _). vm_compute. exact I.
  - exists w'. split; [exact Hd|]. split; [exact Ht|].
    assert (Hrec : mediaRecorderRef (world_after timeoutDue) ≫=
                     (fun k => recorders (world_after timeoutDue) !! k) =
                   Some {| recStream := 9; recState := RSinactive; recChunks := 13;
                           recStopsQueued := 0 |}) by (vm_compute; reflexivity).
    rewrite Hrec in Hm. cbn [recState recStream] in Hm.
    apply Hm.
    exists {| streamVideoId := "cam1"; streamAudioId := "mic1"; tracks := [live; live] |}.
    split; [vm_compute; reflexivity | apply elem_of_cons; now left].
Defined.

(** ** The recording cycle *)



























